(** * gradientflow agent service: message-processing loop

    A shallow embedding of [src/agents/agent_service.py] (and of the
    part of [src/agents/query.py] it calls), with the properties of the
    polling loop, the processing ledger, mention detection, context
    construction and reply sanitization proved over it.

    Conventions of the embedding:
    - a Python [str] is the list of its Unicode code points;
    - a JSON object read with [d.get(k, default)] is a record whose
      field for [k] is an [option] ([None]: the key is absent);
    - the processed-identifier [set] is a [gset], the [user_map] dict
      a [gmap];
    - every network call appends an event to the state's [effects] and
      is answered by an oracle ([World]) indexed by the number of calls
      made so far;
    - an exception is an outcome of a method ([Raises]), caught by
      [try_except] where the source has [try] and [except];
    - a [print] that interpolates a text of the data raises
      [UnicodeEncodeError] when the encoding of the standard output
      lacks a character of the text. The fixed texts of the source,
      the numbers and the text of a [UnicodeEncodeError] (which is
      ASCII: the character is escaped) are taken to be printable; [run]
      prints such texts before its loop starts. *)

From Stdlib Require Import ZArith NArith QArith List Bool Lia Ascii String.
From stdpp Require Import base option list gmap sets sorting.

Local Open Scope Z_scope.

(** ** Text *)

Module Text.

Local Open Scope N_scope.

(** A code point, and a Python [str]. *)
Definition char := N.
Definition str := list char.

(** The code points of an ASCII literal. *)
Fixpoint lit (s : string) : str :=
  match s with
  | EmptyString => []
  | String a s' => N_of_ascii a :: lit s'
  end.

Definition eqc (a b : char) : bool := N.eqb a b.

Definition in_range (lo hi c : char) : bool := (N.leb lo c && N.leb c hi)%bool.

(** [str.isspace] on one character, which is also the regular
    expression class [\s] on [str] patterns: CPython's
    [Py_UNICODE_ISSPACE]. *)
Definition is_space (c : char) : bool :=
  (in_range 0x09 0x0D c || in_range 0x1C 0x20 c
   || eqc c 0x85 || eqc c 0xA0 || eqc c 0x1680
   || in_range 0x2000 0x200A c || eqc c 0x2028 || eqc c 0x2029
   || eqc c 0x202F || eqc c 0x205F || eqc c 0x3000)%bool.

Definition is_ascii_alnum (c : char) : bool :=
  (in_range 0x30 0x39 c || in_range 0x41 0x5A c || in_range 0x61 0x7A c)%bool.

Fixpoint lstrip (s : str) : str :=
  match s with
  | c :: s' => if is_space c then lstrip s' else s
  | [] => []
  end.

(** [s.strip()] *)
Definition strip (s : str) : str := rev (lstrip (rev (lstrip s))).

(** [s.startswith(p)] *)
Fixpoint starts_with (p s : str) : bool :=
  match p, s with
  | [], _ => true
  | a :: p', b :: s' => (eqc a b && starts_with p' s')%bool
  | _ :: _, [] => false
  end.

(** [needle in hay] on two [str] *)
Fixpoint contains (needle hay : str) : bool :=
  (starts_with needle hay ||
   match hay with
   | [] => false
   | _ :: hay' => contains needle hay'
   end)%bool.

(** The rest of [s] after its longest prefix in the class [p]. *)
Fixpoint drop_while (p : char -> bool) (s : str) : str :=
  match s with
  | c :: s' => if p c then drop_while p s' else s
  | [] => []
  end.

(** The head of [s], if there is one, is not in the class [p]. *)
Definition stops (p : char -> bool) (s : str) : Prop :=
  match s with
  | c :: _ => p c = false
  | [] => True
  end.

(** Truthiness of a [str]: non-empty. *)
Definition truthy (s : str) : bool :=
  match s with [] => false | _ :: _ => true end.

End Text.
Import Text.

(** ** Regular expressions

    The four patterns of the source are kept as syntax and run by a
    backtracking matcher with the priorities of Python's [re]: the
    left alternative first, a greedy repetition longest first, a lazy
    one shortest first. One capturing group is enough for the source. *)

Module Re.

Local Open Scope N_scope.

Inductive regex :=
| Chr (c : char)                  (* a literal character *)
| Set_ (p : char -> bool)         (* a class: [[...]], [\s], [.] *)
| Cat (a b : regex)
| Alt (a b : regex)
| Star (greedy : bool) (a : regex)
| Group (a : regex)               (* capturing group 1 *)
| Eos                             (* [$] without MULTILINE *)
| Eps.

(** What a match leaves: the unread input and group 1. *)
Definition result := (str * option str)%type.
Definition cont := str -> option str -> option result.

(** [$]: at the end, or just before a newline that ends the string. *)
Definition at_eos (s : str) : bool :=
  match s with
  | [] => true
  | [c] => eqc c 0x0A
  | _ => false
  end.

(** The repetition of a pattern whose matcher is [body]: at most [n]
    more rounds, each of which has to consume input. *)
Fixpoint star_loop (body : str -> option str -> cont -> option result)
    (greedy : bool) (k : cont) (n : nat) (s : str) (g : option str)
  : option result :=
  match n with
  | O => k s g
  | S n' =>
      let again :=
        fun _ : unit =>
          body s g (fun s' g' =>
            if (length s' <? length s)%nat then star_loop body greedy k n' s' g'
            else None) in
      if greedy then
        match again tt with
        | Some x => Some x
        | None => k s g
        end
      else
        match k s g with
        | Some x => Some x
        | None => again tt
        end
  end.

Fixpoint rmatch (r : regex) (s : str) (g : option str) (k : cont) {struct r}
  : option result :=
  match r with
  | Eps => k s g
  | Chr c =>
      match s with
      | x :: s' => if eqc x c then k s' g else None
      | [] => None
      end
  | Set_ p =>
      match s with
      | x :: s' => if p x then k s' g else None
      | [] => None
      end
  | Cat a b => rmatch a s g (fun s' g' => rmatch b s' g' k)
  | Alt a b =>
      match rmatch a s g k with
      | Some x => Some x
      | None => rmatch b s g k
      end
  | Group a =>
      rmatch a s g (fun s' _ => k s' (Some (take (length s - length s') s)))
  | Eos => if at_eos s then k s g else None
  | Star greedy a => star_loop (rmatch a) greedy k (length s) s g
  end.

(** The literal [s] as a pattern. *)
Fixpoint Lit (s : str) : regex :=
  match s with
  | [] => Eps
  | c :: s' => Cat (Chr c) (Lit s')
  end.

Definition Plus (a : regex) : regex := Cat a (Star true a).

(** A match of [r] that starts at the head of [s]. *)
Definition match_here (r : regex) (s : str) : option result :=
  rmatch r s None (fun s' g => Some (s', g)).

(** [re.search(r, s)]: the leftmost match; returns group 1 (the empty
    string stands for a group that took no part, which does not occur
    in the source's pattern). *)
Fixpoint search (r : regex) (s : str) : option str :=
  match match_here r s with
  | Some (_, g) => Some (default [] g)
  | None =>
      match s with
      | [] => None
      | _ :: s' => search r s'
      end
  end.

(** [re.sub(r, repl, s)] for a constant [repl]: leftmost matches that
    do not overlap are replaced. [skip] counts the characters of the
    current match still to be dropped. The patterns of the source all
    begin with a literal character, so no match is empty; an empty
    match is treated here as no match. *)
Fixpoint sub_from (r : regex) (repl : str) (skip : nat) (s : str) : str :=
  match skip with
  | S n =>
      match s with
      | _ :: s' => sub_from r repl n s'
      | [] => []
      end
  | O =>
      match s with
      | [] => []
      | c :: s' =>
          match match_here r s with
          | Some (rest, _) =>
              match (length s - length rest)%nat with
              | S n => repl ++ sub_from r repl n s'
              | O => c :: sub_from r repl O s'
              end
          | None => c :: sub_from r repl O s'
          end
      end
  end.

Definition sub (r : regex) (repl : str) (s : str) : str := sub_from r repl O s.


End Re.
Import Re.

(** ** [strip_special_tags] *)

Definition any_char : char -> bool := fun _ => true.

(** [<\|channel\|>final<\|message\|>(.*?)(?:<\|end\|>|$)], DOTALL *)
Definition final_re : regex :=
  Cat (Lit (lit "<|channel|>final<|message|>"))
    (Cat (Group (Star false (Set_ any_char)))
         (Alt (Lit (lit "<|end|>")) Eos)).

(** [<think>.*?</think>], DOTALL *)
Definition think_re : regex :=
  Cat (Lit (lit "<think>"))
    (Cat (Star false (Set_ any_char)) (Lit (lit "</think>"))).

(** [<\|[^>]+\|>] *)
Definition tag_re : regex :=
  Cat (Lit (lit "<|"))
    (Cat (Plus (Set_ (fun c => negb (eqc c 0x3E%N)))) (Lit (lit "|>"))).

(** [\n{3,}] *)
Definition blank_lines_re : regex :=
  Cat (Chr 0x0A%N) (Cat (Chr 0x0A%N) (Plus (Chr 0x0A%N))).

Definition strip_special_tags (text : str) : str :=
  if negb (truthy text) then []
  else
    let text :=
      match search final_re text with
      | Some g => g
      | None => text
      end in
    let text := sub think_re [] text in
    let text := sub tag_re [] text in
    let text := sub blank_lines_re [0x0A%N; 0x0A%N] text in
    strip text.


(** ** Data model *)

(** A message of [GET /messages]. Every field is read with [.get]. *)
Record Message := {
  msg_id : option str;
  senderId : option str;
  content : option str;
  timestamp : option Z;
  mentions : option (list str)
}.

(** A user of [GET /messages]: ["id"] is subscripted, ["name"] is read
    with [.get]. *)
Record User := {
  user_id : str;
  user_name : option str
}.

Record ModelConfig := {
  provider : option str;
  model_name : option str;
  temperature : option Q;
  maxTokens : option Z
}.

Record Runtime := {
  endpoint : option str;
  apiKeyAlias : option str
}.

(** An agent of [GET /agents]. *)
Record AgentConfig := {
  cfg_id : option str;
  systemPrompt : option str;
  model : option ModelConfig;
  runtime : option Runtime
}.

Inductive Role := system | user | assistant.

Record Turn := { role : Role; turn_content : str }.

(** [query._current_config] *)
Record LLMClient := { base_url : str; api_key : str }.

(** The calls the service makes: the three requests to the backend,
    and the call of [chat_with_history]. *)
Inductive Event :=
| GetAgents
| GetMessages
| ChatCompletion (messages : list Turn) (model : str) (max_tokens : Z) (temp : Q)
| PostMessage (content : str) (replyToId : option str).

(** What [chat_with_history] does: it returns the completion (which
    the client types as optional) or raises. *)
Inductive ChatResult :=
| Completion (response : option str)
| Raised (description : str).

(** The environment of the service. Each oracle of the network is asked
    with the number of calls made before this one. [None] stands for a
    status other than 200 or an exception of [requests], which the
    source treats alike; the texts it prints for them (a status code,
    the body of the answer, the text of the exception) are not data of
    the model and are taken to be printable.
    [client_reply] is [OpenAI(base_url=..., api_key=...)]: the text of
    the exception that the construction raises, when it raises.
    [stdout_has] tells the characters that the encoding of [sys.stdout]
    has, and [encode_error] gives the text of the [UnicodeEncodeError]
    for a text that it cannot encode. *)
Record World := {
  agents_reply : nat -> option (list AgentConfig);
  messages_reply : nat -> option (list Message * list User);
  chat_reply : nat -> ChatResult;
  post_reply : nat -> bool;
  client_reply : str -> str -> option str;
  stdout_has : char -> bool;
  encode_error : str -> str
}.

(** The exceptions of the loop, each with its text [str(e)]: [print]
    raises [UnicodeEncodeError], and [ClientError] stands for whatever
    the OpenAI client raises. *)
Inductive Exn :=
| UnicodeEncodeError (text : str)
| ClientError (text : str).

(** [str(e)] *)
Definition describe (e : Exn) : str :=
  match e with
  | UnicodeEncodeError text => text
  | ClientError text => text
  end.

(** How a call ends. *)
Inductive Outcome (A : Type) :=
| Returns (a : A)
| Raises (e : Exn).
Arguments Returns {A} a.
Arguments Raises {A} e.

(** The fields of [AgentService] that the loop reads or writes
    ([api_base], [agent_token] and [jwt_token] only build URLs and
    headers), the client configuration of [query.py], and the calls
    made so far, oldest first. *)
Record AgentService := {
  agent_id : str;
  agent_user_id : str;
  last_seen_timestamp : Z;
  processed_message_ids : gset (option str);
  agent_config : option AgentConfig;
  llm_client : LLMClient;
  effects : list Event
}.

Definition set_last_seen_timestamp (v : Z) (self : AgentService) : AgentService :=
  {| agent_id := agent_id self; agent_user_id := agent_user_id self;
     last_seen_timestamp := v;
     processed_message_ids := processed_message_ids self;
     agent_config := agent_config self; llm_client := llm_client self;
     effects := effects self |}.

Definition set_processed_message_ids (v : gset (option str)) (self : AgentService)
  : AgentService :=
  {| agent_id := agent_id self; agent_user_id := agent_user_id self;
     last_seen_timestamp := last_seen_timestamp self;
     processed_message_ids := v;
     agent_config := agent_config self; llm_client := llm_client self;
     effects := effects self |}.

Definition set_agent_config (v : option AgentConfig) (self : AgentService)
  : AgentService :=
  {| agent_id := agent_id self; agent_user_id := agent_user_id self;
     last_seen_timestamp := last_seen_timestamp self;
     processed_message_ids := processed_message_ids self;
     agent_config := v; llm_client := llm_client self;
     effects := effects self |}.

Definition set_llm_client (v : LLMClient) (self : AgentService) : AgentService :=
  {| agent_id := agent_id self; agent_user_id := agent_user_id self;
     last_seen_timestamp := last_seen_timestamp self;
     processed_message_ids := processed_message_ids self;
     agent_config := agent_config self; llm_client := v;
     effects := effects self |}.

Definition set_effects (v : list Event) (self : AgentService) : AgentService :=
  {| agent_id := agent_id self; agent_user_id := agent_user_id self;
     last_seen_timestamp := last_seen_timestamp self;
     processed_message_ids := processed_message_ids self;
     agent_config := agent_config self; llm_client := llm_client self;
     effects := v |}.

(** [AGENT_ID], [AGENT_USER_ID], and the defaults of [query.py] *)
Definition AGENT_ID : str := lit "helper-agent-1".
Definition AGENT_USER_ID : str := lit "llm1".
Definition DEFAULT_BASE_URL : str := lit "https://pxh2f5j83cope2-3005.proxy.runpod.net/v1".
Definition DEFAULT_API_KEY : str := lit "not-needed".

(** [AgentService.__init__]; [now_ms] is [int(time.time() * 1000)]. *)
Definition init (now_ms : Z) (agent_id agent_user_id : str) : AgentService :=
  {| agent_id := agent_id; agent_user_id := agent_user_id;
     last_seen_timestamp := now_ms;
     processed_message_ids := ∅;
     agent_config := None;
     llm_client := {| base_url := DEFAULT_BASE_URL; api_key := DEFAULT_API_KEY |};
     effects := [] |}.

(** ** A monad for the methods: state and exceptions *)

(** A method returns or raises, and leaves a state in both cases. *)
Definition M (A : Type) : Type := AgentService -> Outcome A * AgentService.

#[global] Instance M_ret : MRet M := fun A (a : A) self => (Returns a, self).

#[global] Instance M_bind : MBind M :=
  fun A B (k : A -> M B) (c : M A) self =>
    match c self with
    | (Returns a, self') => k a self'
    | (Raises e, self') => (Raises e, self')
    end.

Definition gets {A} (f : AgentService -> A) : M A :=
  fun self => (Returns (f self), self).

Definition modify (f : AgentService -> AgentService) : M unit :=
  fun self => (Returns tt, f self).

(** A network call: logged, and answered by the oracle. *)
Definition call {A} (e : Event) (answer : nat -> A) : M A :=
  fun self =>
    (Returns (answer (length (effects self))),
     set_effects (effects self ++ [e]) self).

Definition raise {A} (e : Exn) : M A := fun self => (Raises e, self).

(** [try: body except Exception as e: handler(e)] *)
Definition try_except {A} (body : M A) (handler : Exn -> M A) : M A :=
  fun self =>
    match body self with
    | (Returns a, self') => (Returns a, self')
    | (Raises e, self') => handler e self'
    end.

(** [for x in l: body(x)] *)
Fixpoint for_each {A} (l : list A) (body : A -> M unit) : M unit :=
  match l with
  | [] => mret tt
  | x :: l' => body x;; for_each l' body
  end.

Definition exec {A} (c : M A) (self : AgentService) : AgentService := snd (c self).

(** ** The service *)

Section Service.

(** [str.isalnum] on the code points from 128 up: the Unicode character
    database of the Python runtime. *)
Variable unicode_alnum : char -> bool.

Variable w : World.

(** *** [print] *)

(** The encoding of the standard output has every character of the
    text. *)
Definition printable (text : str) : bool := forallb (stdout_has w) text.

(** [print(f"...{text}...")] *)
Definition print (text : str) : M unit :=
  fun self =>
    if printable text then (Returns tt, self)
    else (Raises (UnicodeEncodeError (encode_error w text)), self).

(** [print(f"...{e}")] in a handler: the text of a
    [UnicodeEncodeError] is ASCII. *)
Definition print_exn (e : Exn) : M unit :=
  match e with
  | UnicodeEncodeError _ => mret tt
  | ClientError text => print text
  end.

(** [\w] on a [str] pattern *)
Definition is_word (c : char) : bool :=
  (is_ascii_alnum c || eqc c 0x5F%N || (N.leb 128 c && unicode_alnum c))%bool.

(** [[\w\-\.]] *)
Definition is_token (c : char) : bool :=
  (is_word c || eqc c 0x2D%N || eqc c 0x2E%N)%bool.

(** [@[\w\-\.]+\s*] *)
Definition mention_re : regex :=
  Cat (Chr 0x40%N) (Cat (Plus (Set_ is_token)) (Star true (Set_ is_space))).

(** *** [fetch_agent_config] *)

Definition no_model : ModelConfig :=
  {| provider := None; model_name := None; temperature := None; maxTokens := None |}.

Definition no_runtime : Runtime := {| endpoint := None; apiKeyAlias := None |}.

(** [x or d] for an optional [str] *)
Definition or_else (x : option str) (d : str) : str :=
  match x with
  | Some (c :: s) => c :: s
  | _ => d
  end.

(** [query.configure(base_url, api_key)]: the configuration is updated
    before the client is constructed. *)
Definition configure_llm (url key : option str) : M unit :=
  modify (fun self =>
    let c := llm_client self in
    set_llm_client
      {| base_url := or_else url (base_url c); api_key := or_else key (api_key c) |}
      self);;
  c ← gets llm_client;
  match client_reply w (base_url c) (api_key c) with
  | Some text => raise (ClientError text)
  | None => mret tt
  end.

Definition fetch_agent_config : M (option AgentConfig) :=
  try_except
    (resp ← call GetAgents (agents_reply w);
     match resp with
     | Some agents =>
         me ← gets agent_id;
         match List.find (fun agent => bool_decide (cfg_id agent = Some me)) agents with
         | Some agent =>
             modify (set_agent_config (Some agent));;
             let model := default no_model (model agent) in
             let runtime := default no_runtime (runtime agent) in
             (if bool_decide (provider model = Some (lit "parallax")) then
                let url := endpoint runtime in
                let key := or_else (apiKeyAlias runtime) (lit "not-needed") in
                if truthy (default [] url) then
                  configure_llm url (Some key);;
                  print (default [] url)
                else mret tt
              else mret tt);;
             mret (Some agent)
         | None => print me;; mret None
         end
     | None => mret None
     end)
    (fun e => print_exn e;; mret None).

(** *** [fetch_messages] *)

(** The prints of its [try] block and of its handler have no text of
    the data of the model. *)
Definition fetch_messages : M (list Message * list User) :=
  resp ← call GetMessages (messages_reply w);
  match resp with
  | Some (messages, users) => mret (messages, users)
  | None => mret ([], [])
  end.

(** *** [send_message] *)

Definition send_message (content : str) (reply_to_id : option str) : M bool :=
  let replyToId :=
    if truthy (default [] reply_to_id) then reply_to_id else None in
  try_except
    (ok ← call (PostMessage content replyToId) (post_reply w);
     if ok : bool then print (take 50 content);; mret true
     else mret false)
    (fun e => print_exn e;; mret false).

(** *** [is_mentioned] *)

Fixpoint named_in (me content : str) (users : list User) : bool :=
  match users with
  | [] => false
  | u :: users' =>
      if bool_decide (user_id u = me) then
        let agent_name := default [] (user_name u) in
        if (truthy agent_name && contains (0x40%N :: agent_name) content)%bool
        then true
        else named_in me content users'
      else named_in me content users'
  end.

Definition is_mentioned (self : AgentService) (message : Message) (users : list User)
  : bool :=
  let mentions := default [] (mentions message) in
  if bool_decide (agent_user_id self ∈ mentions) then true
  else
    let content := default [] (content message) in
    named_in (agent_user_id self) content users.

(** *** [build_context] *)

(** [{u["id"]: u.get("name", "User") for u in users}]: a later user
    replaces an earlier one with the same identifier. *)
Definition user_map (users : list User) : gmap str str :=
  fold_left (fun m u => <[user_id u := default (lit "User") (user_name u)]> m) users ∅.

(** [messages[-10:] if len(messages) > 10 else messages] *)
Definition recent (messages : list Message) : list Message :=
  if (10 <? length messages)%nat then drop (length messages - 10) messages
  else messages.

(** [re.sub(r"@[\w\-\.]+\s*", "", content)] *)
Definition remove_mentions (content : str) : str := sub mention_re [] content.

(** The cleaning of one content: the special tags, then the mentions. *)
Definition clean_content (raw : str) : str :=
  let content := strip_special_tags raw in
  strip (remove_mentions content).

(** The body of the loop of [build_context]. *)
Definition context_turn (self : AgentService) (names : gmap str str)
    (current_msg msg : Message) : Turn :=
  let sender_id := default [] (senderId msg) in
  let sender_name := default (lit "User") (names !! sender_id) in
  let content := clean_content (default [] (content msg)) in
  if bool_decide (sender_id = agent_user_id self) then
    {| role := assistant; turn_content := content |}
  else
    let is_trigger := bool_decide (msg_id msg = msg_id current_msg) in
    let formatted :=
      if is_trigger then
        lit "<Name: " ++ sender_name ++ lit "> [asking you]: " ++ content
      else
        lit "<Name: " ++ sender_name ++ lit ">: " ++ content in
    {| role := user; turn_content := formatted |}.

Definition build_context (self : AgentService) (messages : list Message)
    (users : list User) (current_msg : Message) : list Turn :=
  let names := user_map users in
  List.map (context_turn self names current_msg) (recent messages).

(** *** [generate_reply] *)

Definition default_system_prompt : str :=
  lit "You are a helpful AI assistant in a group chat. "
  ++ lit "Respond directly and concisely to the user's message. "
  ++ lit "Do NOT include any prefix like '[GPT-4]:' or your name in responses. "
  ++ lit "Be friendly and helpful. You may respond in the user's language.".

(** The text before [{str(e)}] in the reply of the [except] branch:
    U+62B1 U+6B49 U+FF0C U+6211 U+9047 U+5230 U+4E86 U+4E00 U+4E9B
    U+95EE U+9898 U+FF1A. *)
Definition failure_prefix : str :=
  [0x62B1; 0x6B49; 0xFF0C; 0x6211; 0x9047; 0x5230; 0x4E86; 0x4E00; 0x4E9B;
   0x95EE; 0x9898; 0xFF1A]%N.

Definition generate_reply (context : list Turn) : M str :=
  cfg ← gets agent_config;
  let config_system_prompt := cfg ≫= systemPrompt in
  let system_prompt :=
    {| role := system;
       turn_content := or_else config_system_prompt default_system_prompt |} in
  let messages := system_prompt :: context in
  let model_config :=
    match cfg with
    | Some c => default no_model (model c)
    | None => no_model
    end in
  let model_name := default (lit "default") (model_name model_config) in
  let temperature := default (6 # 10)%Q (temperature model_config) in
  let max_tokens := default 1024 (maxTokens model_config) in
  print model_name;;
  for_each messages (fun msg => print (turn_content msg));;
  try_except
    (r ← call (ChatCompletion messages model_name max_tokens temperature)
           (chat_reply w);
     match r with
     | Completion response =>
         print (default (lit "None") response);;
         let cleaned := strip_special_tags (default [] response) in
         print (take 100 cleaned);;
         mret cleaned
     | Raised e => raise (ClientError e)
     end)
    (fun e => print_exn e;; mret (failure_prefix ++ describe e)).

(** *** [process_message] *)

Definition process_message (message : Message) (messages : list Message)
    (users : list User) : M unit :=
  let msg_id := msg_id message in
  let sender_id := senderId message in
  self ← gets (fun self => self);
  if bool_decide (sender_id = Some (agent_user_id self)) then mret tt
  else if bool_decide (msg_id ∈ processed_message_ids self) then mret tt
  else if negb (is_mentioned self message users) then mret tt
  else
    print (take 50 (default [] (content message)));;
    fetch_agent_config;;
    self ← gets (fun self => self);
    let context := build_context self messages users message in
    reply ← generate_reply context;
    send_message reply msg_id;;
    modify (fun self =>
      set_processed_message_ids ({[ msg_id ]} ∪ processed_message_ids self) self).

(** *** [run] *)

Definition ts (m : Message) : Z := default 0 (timestamp m).

(** [max(m.get("timestamp", 0) for m in messages)] on a non-empty list *)
Definition latest (messages : list Message) : Z :=
  match messages with
  | [] => 0
  | m :: rest => fold_left Z.max (List.map ts rest) (ts m)
  end.

(** The list comprehension of [run]. *)
Definition new_messages (self : AgentService) (messages : list Message)
  : list Message :=
  List.filter
    (fun m => (last_seen_timestamp self <? ts m)
              && bool_decide (msg_id m ∉ processed_message_ids self))%bool
    messages.

(** The [try] block of the loop. *)
Definition poll_body : M unit :=
  '(messages, users) ← fetch_messages;
  match messages with
  | [] => mret tt
  | _ :: _ =>
      self ← gets (fun self => self);
      for_each (new_messages self messages)
        (fun msg => process_message msg messages users);;
      let latest_ts := latest messages in
      modify (fun self =>
        set_last_seen_timestamp (Z.max (last_seen_timestamp self) latest_ts) self)
  end.

(** The body of [while True]: an exception of the [try] block ends the
    turn, with what the block has done so far; [time.sleep] is left
    out. *)
Definition poll_cycle : M unit :=
  try_except poll_body (fun e => print_exn e;; mret tt).

(** The first [n] turns of the loop of [run]. *)
Fixpoint run (n : nat) : M unit :=
  match n with
  | O => mret tt
  | S n' => poll_cycle;; run n'
  end.

End Service.

(** ** Reading the log of calls *)

(** The [replyToId] that [send_message] posts for a reply to [m]. *)
Definition reply_ref (m : Message) : option str :=
  if truthy (default [] (msg_id m)) then msg_id m else None.

(** The [replyToId] of the posts of a log, oldest first. *)
Fixpoint replies (es : list Event) : list (option str) :=
  match es with
  | [] => []
  | PostMessage _ r :: es' => r :: replies es'
  | _ :: es' => replies es'
  end.

(** What the fetch of the turn that starts in [self] returns. *)
Definition fetched (w : World) (self : AgentService) : list Message * list User :=
  match (fetch_messages w self).1 with
  | Returns r => r
  | Raises _ => ([], [])
  end.

(** A post of the log answers a fetched message that is newer than
    [now]; other calls are not constrained. *)
Definition answers_newer (w : World) (now : Z) (e : Event) : Prop :=
  match e with
  | PostMessage _ r =>
      exists k msgs users m,
        messages_reply w k = Some (msgs, users) /\ m ∈ msgs /\
        now < ts m /\ r = reply_ref m
  | _ => True
  end.

(** What [generate_reply] makes of the answer of the client, when the
    texts it prints on the way can be printed. *)
Definition reply_of (r : ChatResult) : str :=
  match r with
  | Completion response => strip_special_tags (default [] response)
  | Raised e => failure_prefix ++ e
  end.

(** What the [try] and [except] of [generate_reply] make of the answer
    of the client. *)
Definition reply_outcome (w : World) (r : ChatResult) : Outcome str :=
  match r with
  | Completion response =>
      let raw := default (lit "None") response in
      let cleaned := strip_special_tags (default [] response) in
      if printable w raw then
        if printable w (take 100 cleaned) then Returns cleaned
        else Returns (failure_prefix ++ encode_error w (take 100 cleaned))
      else Returns (failure_prefix ++ encode_error w raw)
  | Raised e =>
      if printable w e then Returns (failure_prefix ++ e)
      else Raises (UnicodeEncodeError (encode_error w e))
  end.

(** An outcome that is no exception of the client: a method whose
    handler has printed the exception lets only the exception of the
    print out. *)
Definition encoding_only {A} (o : Outcome A) : Prop :=
  match o with
  | Raises (ClientError _) => False
  | _ => True
  end.

(** The method ends without an exception. *)
Definition returns {A} (c : M A) (self : AgentService) : Prop :=
  exists a, (c self).1 = Returns a.


(** ** Sample inputs *)

Module Sample.

(** A table for texts of ASCII characters, which never consult it. *)
Definition ascii_only : char -> bool := fun _ => false.

(** A standard output in UTF-8: every character but the surrogates. *)
Definition utf8 : char -> bool := fun c => negb (in_range 0xD800%N 0xDFFF%N c).

(** The text of the exception of the [utf-8] codec. *)
Definition codec_error : str -> str :=
  fun _ => lit "'utf-8' codec can't encode character: surrogates not allowed".

Definition bot : User := {| user_id := lit "llm1"; user_name := Some (lit "Bot") |}.

Definition message (id sender text : string) (t : Z) : Message :=
  {| msg_id := Some (lit id); senderId := Some (lit sender);
     content := Some (lit text); timestamp := Some t; mentions := Some [] |}.

(** A service started at time 50. *)
Definition service : AgentService := init 50 AGENT_ID AGENT_USER_ID.

Definition late : Message := message "b" "u1" "@Bot two" 200.
Definition early : Message := message "a" "u1" "@Bot one" 100.
Definition own : Message := message "c" "llm1" "@Bot hello" 300.

(** The backend returns [late] before [early]; the model fails. *)
Definition unordered : World :=
  {| agents_reply := fun _ => None;
     messages_reply := fun _ => Some ([late; early], [bot]);
     chat_reply := fun _ => Raised (lit "boom");
     post_reply := fun _ => true;
     client_reply := fun _ _ => None;
     stdout_has := utf8; encode_error := codec_error |}.

(** The backend returns [early] before [late]; the model answers. *)
Definition ordered : World :=
  {| agents_reply := fun _ => Some [];
     messages_reply := fun _ => Some ([early; late], [bot]);
     chat_reply := fun _ => Completion (Some (lit "<think>hm</think>Hi"));
     post_reply := fun _ => true;
     client_reply := fun _ _ => None;
     stdout_has := utf8; encode_error := codec_error |}.

(** A mention that ends in a lone surrogate (U+D83D), as the JSON text
    ["@Bot hi \ud83d"] decodes. *)
Definition garbled : Message :=
  {| msg_id := Some (lit "b"); senderId := Some (lit "u1");
     content := Some (lit "@Bot hi " ++ [0xD83D%N]); timestamp := Some 200;
     mentions := Some [] |}.

(** The backend returns [garbled] before [early]. *)
Definition poisoned : World :=
  {| agents_reply := fun _ => Some [];
     messages_reply := fun _ => Some ([garbled; early], [bot]);
     chat_reply := fun _ => Completion (Some (lit "Hi"));
     post_reply := fun _ => true;
     client_reply := fun _ _ => None;
     stdout_has := utf8; encode_error := codec_error |}.

(** The model fails, and the text of its exception has a lone
    surrogate. *)
Definition failing : World :=
  {| agents_reply := fun _ => Some [];
     messages_reply := fun _ => Some ([early], [bot]);
     chat_reply := fun _ => Raised (lit "boom " ++ [0xD83D%N]);
     post_reply := fun _ => true;
     client_reply := fun _ _ => None;
     stdout_has := utf8; encode_error := codec_error |}.


End Sample.

(** ** The steps of the sanitization *)

(** The two markers of the final channel. *)
Definition FINAL_MARK : str := lit "<|channel|>final<|message|>".
Definition END_MARK : str := lit "<|end|>".
(** What [strip_special_tags] does after the search for the final
    channel. *)
Definition scrub (text : str) : str :=
  strip (sub blank_lines_re [0x0A%N; 0x0A%N] (sub tag_re [] (sub think_re [] text))).


(** No match of [r] starts anywhere in [s]. *)
Definition matchless (r : regex) (s : str) : Prop :=
  forall a b, s = a ++ b -> match_here r b = None.


(** ** More on the log of calls *)

(** The number of calls of a log that satisfy [p]. *)
Definition count_calls (p : Event -> bool) (es : list Event) : nat :=
  length (List.filter p es).

Definition is_fetch (e : Event) : bool :=
  match e with GetMessages => true | _ => false end.

Definition is_refresh (e : Event) : bool :=
  match e with GetAgents => true | _ => false end.

Definition is_completion (e : Event) : bool :=
  match e with ChatCompletion _ _ _ _ => true | _ => false end.

Definition is_post (e : Event) : bool :=
  match e with PostMessage _ _ => true | _ => false end.

(** A log made of fetches and of replies, a reply being a refresh of
    the configuration, then a completion, then a post; a reply that an
    exception has ended stops after the refresh or after the
    completion. *)
Fixpoint reply_blocks (es : list Event) : bool :=
  match es with
  | [] => true
  | GetMessages :: es' => reply_blocks es'
  | GetAgents :: es' =>
      match es' with
      | ChatCompletion _ _ _ _ :: es'' =>
          match es'' with
          | PostMessage _ _ :: es''' => reply_blocks es'''
          | _ => reply_blocks es''
          end
      | _ => reply_blocks es'
      end
  | _ => false
  end.

(** Two environments that differ at most in the outcome of the posts. *)
Definition same_but_posts (w w' : World) : Prop :=
  (forall n, agents_reply w n = agents_reply w' n)
  /\ (forall n, messages_reply w n = messages_reply w' n)
  /\ (forall n, chat_reply w n = chat_reply w' n)
  /\ (forall url key, client_reply w url key = client_reply w' url key)
  /\ (forall c, stdout_has w c = stdout_has w' c)
  /\ (forall text, encode_error w text = encode_error w' text).

(** The identifier [i] is that of a fetched message newer than [now],
    not sent by [me], that mentions [me]. *)
Definition mention_fetched (w : World) (now : Z) (me : AgentService)
    (i : option str) : Prop :=
  exists k msgs users m,
    messages_reply w k = Some (msgs, users) /\ m ∈ msgs /\ msg_id m = i /\
    now < ts m /\ senderId m <> Some (agent_user_id me) /\
    is_mentioned me m users = true.

(** What the loop keeps, from one state to the next. *)
Definition tallied (s : AgentService) : Prop :=
  count_calls is_post (effects s) = size (processed_message_ids s)
  /\ (count_calls is_post (effects s) <= count_calls is_completion (effects s))%nat
  /\ (count_calls is_completion (effects s) <= count_calls is_refresh (effects s))%nat
  /\ reply_blocks (effects s) = true.


(** ** More sample inputs *)

Module Registry.

Definition elsewhere : AgentConfig :=
  {| cfg_id := Some (lit "other-agent"); systemPrompt := None;
     model := None; runtime := None |}.

(** The entry of the agent: a self-hosted model, no key alias. *)
Definition mine : AgentConfig :=
  {| cfg_id := Some AGENT_ID; systemPrompt := Some (lit "Be brief.");
     model := Some {| provider := Some (lit "parallax"); model_name := Some (lit "m1");
                      temperature := None; maxTokens := None |};
     runtime := Some {| endpoint := Some (lit "http://host:3005/v1");
                        apiKeyAlias := None |} |}.

Definition listed : World :=
  {| agents_reply := fun _ => Some [elsewhere; mine];
     messages_reply := fun _ => None;
     chat_reply := fun _ => Completion None;
     post_reply := fun _ => true;
     client_reply := fun _ _ => None;
     stdout_has := Sample.utf8; encode_error := Sample.codec_error |}.

(** The entry of the agent, with a port that is no number. *)
Definition broken : AgentConfig :=
  {| cfg_id := Some AGENT_ID; systemPrompt := Some (lit "Be brief.");
     model := Some {| provider := Some (lit "parallax"); model_name := Some (lit "m1");
                      temperature := None; maxTokens := None |};
     runtime := Some {| endpoint := Some (lit "http://host:bad/v1");
                        apiKeyAlias := None |} |}.

(** The client refuses the endpoint of [broken]. *)
Definition refusing : World :=
  {| agents_reply := fun _ => Some [elsewhere; broken];
     messages_reply := fun _ => None;
     chat_reply := fun _ => Completion None;
     post_reply := fun _ => true;
     client_reply := fun url _ =>
       if bool_decide (url = lit "http://host:bad/v1")
       then Some (lit "Invalid port: 'bad'") else None;
     stdout_has := Sample.utf8; encode_error := Sample.codec_error |}.

End Registry.

(** ** Newlines *)



(** ** [rag_service.chunk_text] *)

Module Rag.

(** [s.split(sep)] for a non-empty [sep]: the pieces between the
    leftmost occurrences of [sep] that do not overlap. [skip] counts
    the characters of the current occurrence still to be dropped. *)
Fixpoint split_from (sep : str) (skip : nat) (s : str) : list str :=
  match s with
  | [] => [[]]
  | c :: s' =>
      match skip with
      | S n => split_from sep n s'
      | O =>
          if starts_with sep s then [] :: split_from sep (length sep - 1) s'
          else
            match split_from sep O s' with
            | p :: ps => (c :: p) :: ps
            | [] => [[c]]
            end
      end
  end.

Definition split (sep s : str) : list str := split_from sep O s.

(** [s.replace(old, new)] for a non-empty [old]. *)
Fixpoint replace_from (old new : str) (skip : nat) (s : str) : str :=
  match s with
  | [] => []
  | c :: s' =>
      match skip with
      | S n => replace_from old new n s'
      | O =>
          if starts_with old s then new ++ replace_from old new (length old - 1) s'
          else c :: replace_from old new O s'
      end
  end.

Definition replace (old new s : str) : str := replace_from old new O s.

(** [len(s)] *)
Definition len (s : str) : Z := Z.of_nat (length s).

(** [s[-k:]] for a positive [k] *)
Definition tail (k : Z) (s : str) : str := drop (length s - Z.to_nat k) s.

(** [CHUNK_SIZE], [CHUNK_OVERLAP] *)
Definition CHUNK_SIZE : Z := 500.
Definition CHUNK_OVERLAP : Z := 50.

Section Chunking.

Variables chunk_size overlap : Z.

(** The state of the loops: [chunks] and [current_chunk]. *)
Definition state := (list str * str)%type.

(** [(sep if current_chunk else "") + piece], appended *)
Definition joined (sep current piece : str) : str :=
  current ++ (if truthy current then sep else []) ++ piece.

(** The body of [for sent in sentences]. *)
Definition add_sentence (st : state) (sent : str) : state :=
  let '(chunks, current_chunk) := st in
  let sent := strip sent in
  if negb (truthy sent) then st
  else
    let '(chunks, current_chunk) :=
      if (len current_chunk + len sent + 1 >? chunk_size) && truthy current_chunk
      then (chunks ++ [strip current_chunk],
            if overlap >? 0 then tail overlap current_chunk else [])
      else (chunks, current_chunk) in
    (chunks, joined [0x20%N] current_chunk sent).

(** [para.replace('. ', '.\n').replace('。', '。\n').split('\n')] *)
Definition sentences (para : str) : list str :=
  split [0x0A%N]
    (replace [0x3002%N] [0x3002%N; 0x0A%N]
       (replace [0x2E%N; 0x20%N] [0x2E%N; 0x0A%N] para)).

(** The body of [for para in paragraphs]. *)
Definition add_paragraph (st : state) (para : str) : state :=
  let '(chunks, current_chunk) := st in
  let para := strip para in
  if negb (truthy para) then st
  else if len current_chunk + len para + 2 >? chunk_size then
    let '(chunks, current_chunk) :=
      if truthy current_chunk then
        (chunks ++ [strip current_chunk],
         if (overlap >? 0) && (len current_chunk >? overlap)
         then tail overlap current_chunk else [])
      else (chunks, current_chunk) in
    if len para >? chunk_size then
      fold_left add_sentence (sentences para) (chunks, current_chunk)
    else (chunks, joined [0x20%N] current_chunk para)
  else (chunks, joined [0x0A%N; 0x0A%N] current_chunk para).

Definition chunk_text (text : str) : list str :=
  if negb (truthy text) || (len text <=? chunk_size) then
    if truthy text then [text] else []
  else
    let paragraphs := split [0x0A%N; 0x0A%N] text in
    let '(chunks, current_chunk) := fold_left add_paragraph paragraphs ([], []) in
    if truthy (strip current_chunk) then chunks ++ [strip current_chunk]
    else chunks.

End Chunking.

(** A chunk that is not empty and has no white space at either end. *)
Definition clean (c : str) : Prop :=
  c <> [] /\ stops is_space c /\ stops is_space (rev c).

(** The last character of [s] is not white space. *)
Definition ends_firm (s : str) : Prop :=
  match rev s with
  | c :: _ => is_space c = false
  | [] => False
  end.

(** [s] has a character that is not white space. *)
Definition nonblank (s : str) : Prop := Exists (fun c => is_space c = false) s.

(** What the loops keep: the chunks are clean, and the current chunk
    is empty or ends with a character that is not white space. *)
Definition kept (st : state) : Prop :=
  Forall clean st.1 /\ (st.2 = [] \/ ends_firm st.2).

(** Something has been put into the chunks or the current chunk. *)
Definition started (st : state) : Prop := st.1 <> [] \/ st.2 <> [].

(** A text of three paragraphs, for a chunk size of 20 and an overlap
    of 5. *)
Definition sample : str :=
  lit "Hello world. This is it." ++ [0x0A%N; 0x0A%N]
  ++ lit "Second para here." ++ [0x0A%N; 0x0A%N]
  ++ lit "A very long paragraph. With sentences. And more sentences here. End.".

End Rag.

(** ** [rag_service.get_documents] *)

Module Docs.













End Docs.

(** ** [document_parser.parse_text] *)

Module Parser.

(** The content of a file: numbers below 256. *)
Definition bytes := list N.

(** What [file_content.decode(enc)] does: it returns the text, raises
    [UnicodeDecodeError], or raises something else (an encoding that
    is not known, say). *)
Inductive Decoding :=
| Decoded (text : str)
| DecodeError
| OtherError (description : str).

(** [latin-1] decodes every byte, to the code point of the same
    number. *)
Definition decode_latin1 (content : bytes) : Decoding := Decoded content.

Definition NO_ENCODING : str :=
  lit "Could not decode text file with any known encoding".

(** The loop over the encodings, inside the handler of [parse_text]. *)
Fixpoint try_decoders (decoders : list (bytes -> Decoding)) (content : bytes)
  : str * option str :=
  match decoders with
  | [] => ([], Some NO_ENCODING)
  | decode :: rest =>
      match decode content with
      | Decoded text => (text, None)
      | DecodeError => try_decoders rest content
      | OtherError e => ([], Some (lit "Text parsing error: " ++ e))
      end
  end.

Section ParseText.

(** The codecs of the Python runtime: the one of the [encoding]
    argument, [utf-8] and [cp1252]. The last two are known encodings,
    which raise nothing but [UnicodeDecodeError]. *)
Variable decode_requested : bytes -> Decoding.
Variables decode_utf8 decode_cp1252 : bytes -> option str.

Definition known_codec (decode : bytes -> option str) (content : bytes) : Decoding :=
  match decode content with
  | Some text => Decoded text
  | None => DecodeError
  end.

Definition parse_text (content : bytes) : str * option str :=
  try_decoders
    [decode_requested; known_codec decode_utf8; decode_latin1;
     known_codec decode_cp1252] content.

End ParseText.

End Parser.

(** * Properties *)

(** ** Texts and the matcher *)



Lemma drop_while_length p s : (length (drop_while p s) <= length s)%nat.
Proof.
  induction s as [|c s IH]; simpl; [lia|]. destruct (p c); simpl; lia.
Qed.



Lemma rmatch_cat a b s g k :
  rmatch (Cat a b) s g k = rmatch a s g (fun s' g' => rmatch b s' g' k).
Proof. reflexivity. Qed.

Lemma rmatch_chr c s g k :
  rmatch (Chr c) s g k =
  match s with
  | x :: s' => if eqc x c then k s' g else None
  | [] => None
  end.
Proof. reflexivity. Qed.

Lemma rmatch_set p s g k :
  rmatch (Set_ p) s g k =
  match s with
  | x :: s' => if p x then k s' g else None
  | [] => None
  end.
Proof. reflexivity. Qed.

Lemma sub_from_cons r repl c s :
  sub_from r repl O (c :: s) =
  match match_here r (c :: s) with
  | Some (rest, _) =>
      match (length (c :: s) - length rest)%nat with
      | S n => repl ++ sub_from r repl n s
      | O => c :: sub_from r repl O s
      end
  | None => c :: sub_from r repl O s
  end.
Proof. reflexivity. Qed.

Section Mention.
Variable tbl : char -> bool.




End Mention.

(** ** Substrings *)

Lemma eqc_eq a b : eqc a b = true <-> a = b.
Proof. apply N.eqb_eq. Qed.

Lemma starts_with_spec p s : starts_with p s = true <-> exists b, s = p ++ b.
Proof.
  revert s. induction p as [|a p IH]; intros s; simpl.
  - split; [eauto|done].
  - destruct s as [|c s].
    + split; [done|]. by intros [b Hb].
    + rewrite andb_true_iff, eqc_eq, IH. split.
      * intros [-> [b ->]]. eauto.
      * intros [b Hb]. injection Hb as -> ->. eauto.
Qed.

Lemma contains_spec n h :
  contains n h = true <-> exists a b, h = a ++ n ++ b.
Proof.
  induction h as [|c h IH]; simpl; rewrite orb_true_iff, starts_with_spec.
  - split.
    + intros [[b Hb]|?]; [|done]. exists [], b. done.
    + intros (a & b & Hab). left. destruct a; [|done]. eauto.
  - rewrite IH. split.
    + intros [[b Hb]|(a & b & ->)].
      * exists [], b. done.
      * exists (c :: a), b. done.
    + intros (a & b & Hab). destruct a as [|x a].
      * left. eauto.
      * right. injection Hab as -> ->. eauto.
Qed.

Lemma truthy_spec s : truthy s = true <-> s <> [].
Proof. by destruct s. Qed.

Lemma named_in_spec me content users :
  named_in me content users = true <->
  exists u D, u ∈ users /\ user_id u = me /\ user_name u = Some D /\ D <> [] /\
    contains (0x40%N :: D) content = true.
Proof.
  induction users as [|u users IH]; simpl.
  - split; [done|]. intros (u & D & Hu & _). by apply elem_of_nil in Hu.
  - case_bool_decide as Hid.
    + destruct (truthy (default [] (user_name u)) && contains _ content)%bool eqn:E.
      * split; [intros _|done]. apply andb_true_iff in E as [Ht Hc].
        destruct (user_name u) as [D|] eqn:En; [|done]. simpl in *.
        exists u, D. rewrite En. repeat split; try done; [left|by apply truthy_spec].
      * rewrite IH. split.
        -- intros (v & D & Hv & ?). exists v, D. split; [by right|done].
        -- intros (v & D & Hv & Hvid & Hn & HD & Hc).
           apply elem_of_cons in Hv as [->|Hv]; [|by eauto 10].
           rewrite Hn in E. simpl in E. rewrite Hc in E.
           apply truthy_spec in HD. by rewrite HD in E.
    + rewrite IH. split.
      * intros (v & D & Hv & ?). exists v, D. split; [by right|done].
      * intros (v & D & Hv & Hvid & Hrest).
        apply elem_of_cons in Hv as [->|Hv]; [done|by eauto 10].
Qed.

Lemma is_mentioned_spec self message users :
    is_mentioned self message users = true <->
    (agent_user_id self ∈ default [] (mentions message)
     \/ exists u D pre post,
          u ∈ users /\ user_id u = agent_user_id self /\
          user_name u = Some D /\ D <> [] /\
          default [] (content message) = pre ++ (0x40%N :: D) ++ post).
Proof.
  unfold is_mentioned. case_bool_decide as Hm.
  - split; [by left|done].
  - rewrite named_in_spec. split.
    + intros (u & D & Hu & Hid & Hn & HD & Hc). right.
      apply contains_spec in Hc as (pre & post & Hc). by exists u, D, pre, post.
    + intros [?|(u & D & pre & post & Hu & Hid & Hn & HD & Hc)]; [done|].
      exists u, D. repeat split; try done. apply contains_spec. eauto.
Qed.
(** ** The monad *)

Lemma replies_app es1 es2 : replies (es1 ++ es2) = replies es1 ++ replies es2.
Proof.
  induction es1 as [|e es1 IH]; [done|]. destruct e; simpl; by rewrite ?IH.
Qed.

Lemma replies_post c r es : PostMessage c r ∈ es -> r ∈ replies es.
Proof.
  induction es as [|e es IH]; intros H; [by apply elem_of_nil in H|].
  apply elem_of_cons in H as [<-|H]; [left|].
  destruct e; simpl; auto. right. auto.
Qed.

Lemma bind_run {A B} (c : M A) (k : A -> M B) self :
  (c ≫= k) self =
  match (c self).1 with
  | Returns a => k a (c self).2
  | Raises e => (Raises e, (c self).2)
  end.
Proof. unfold mbind, M_bind. by destruct (c self) as [[a|e] s]. Qed.

Lemma bind_returns {A B} (c : M A) (k : A -> M B) self a s :
  c self = (Returns a, s) -> (c ≫= k) self = k a s.
Proof. intros H. by rewrite bind_run, H. Qed.

Lemma bind_raises {A B} (c : M A) (k : A -> M B) self e s :
  c self = (Raises e, s) -> (c ≫= k) self = (Raises e, s).
Proof. intros H. by rewrite bind_run, H. Qed.

Lemma gets_bind {A B} (f : AgentService -> A) (k : A -> M B) self :
  (gets f ≫= k) self = k (f self) self.
Proof. reflexivity. Qed.

Lemma modify_bind {B} (f : AgentService -> AgentService) (k : unit -> M B) self :
  (modify f ≫= k) self = k tt (f self).
Proof. reflexivity. Qed.

Lemma call_bind {A B} (e : Event) (answer : nat -> A) (k : A -> M B) self :
  (call e answer ≫= k) self =
  k (answer (length (effects self))) (set_effects (effects self ++ [e]) self).
Proof. reflexivity. Qed.

Lemma ret_bind {A B} (a : A) (k : A -> M B) self : (mret a ≫= k) self = k a self.
Proof. reflexivity. Qed.

Lemma raise_bind {A B} e (k : A -> M B) self : (raise e ≫= k) self = (Raises e, self).
Proof. reflexivity. Qed.

Lemma bind_assoc {A B C} (c : M A) (k1 : A -> M B) (k2 : B -> M C) self :
  ((c ≫= k1) ≫= k2) self = (c ≫= fun a => k1 a ≫= k2) self.
Proof. unfold mbind, M_bind. by destruct (c self) as [[a|e] s]. Qed.

Lemma try_returns {A} (body : M A) handler self a s :
  body self = (Returns a, s) -> try_except body handler self = (Returns a, s).
Proof. intros H. unfold try_except. by rewrite H. Qed.

Lemma try_raises {A} (body : M A) handler self e s :
  body self = (Raises e, s) -> try_except body handler self = handler e s.
Proof. intros H. unfold try_except. by rewrite H. Qed.

Section Printing.
Variable w : World.

Lemma print_bind {B} text (k : unit -> M B) self :
  (print w text ≫= k) self =
  if printable w text then k tt self
  else (Raises (UnicodeEncodeError (encode_error w text)), self).
Proof. unfold mbind, M_bind, print. by destruct (printable w text). Qed.

Lemma print_exn_bind {B} e (k : unit -> M B) self :
  (print_exn w e ≫= k) self =
  match e with
  | ClientError text =>
      if printable w text then k tt self
      else (Raises (UnicodeEncodeError (encode_error w text)), self)
  | UnicodeEncodeError _ => k tt self
  end.
Proof. destruct e; [done|]. apply print_bind. Qed.

(** The prints of a list of texts, one after the other. *)
Lemma for_each_print {T} (f : T -> str) l self :
  exists text,
    for_each l (fun x => print w (f x)) self =
    if forallb (fun x => printable w (f x)) l then (Returns tt, self)
    else (Raises (UnicodeEncodeError text), self).
Proof.
  induction l as [|x l [text IH]]; [by exists []|].
  cbn [for_each forallb]. rewrite print_bind.
  destruct (printable w (f x)); [by exists text|]. by eexists.
Qed.

End Printing.

(** One step of a method. *)
Ltac step :=
  rewrite ?bind_assoc;
  first [ rewrite gets_bind | rewrite modify_bind | rewrite call_bind
        | rewrite ret_bind | rewrite raise_bind
        | rewrite print_bind | rewrite print_exn_bind ];
  cbv beta iota.

(** ** The methods, one by one *)

Section Methods.
Variable tbl : char -> bool.
Variable w : World.

Lemma build_context_agent self self' messages users current_msg :
  agent_user_id self' = agent_user_id self ->
  build_context tbl self' messages users current_msg =
  build_context tbl self messages users current_msg.
Proof.
  intros H. unfold build_context. f_equal.
  unfold context_turn. by rewrite H.
Qed.

Lemma process_message_self_sent self m msgs users :
  senderId m = Some (agent_user_id self) ->
  process_message tbl w m msgs users self = (Returns tt, self).
Proof.
  intros H. unfold process_message. rewrite gets_bind.
  rewrite bool_decide_eq_true_2 by exact H. reflexivity.
Qed.

Lemma process_message_seen self m msgs users :
  msg_id m ∈ processed_message_ids self ->
  process_message tbl w m msgs users self = (Returns tt, self).
Proof.
  intros H. unfold process_message. rewrite gets_bind.
  destruct (bool_decide (senderId m = Some (agent_user_id self))); [reflexivity|].
  rewrite bool_decide_eq_true_2 by exact H. reflexivity.
Qed.

Lemma process_message_not_mentioned self m msgs users :
  is_mentioned self m users = false ->
  process_message tbl w m msgs users self = (Returns tt, self).
Proof.
  intros H. unfold process_message. rewrite gets_bind.
  destruct (bool_decide (senderId m = Some (agent_user_id self))); [reflexivity|].
  destruct (bool_decide (msg_id m ∈ processed_message_ids self)); [reflexivity|].
  by rewrite H.
Qed.

(** [fetch_agent_config] makes one call, and touches the cached
    configuration and the client only. *)
Lemma fetch_agent_config_spec self :
  exists r cfg llm,
    fetch_agent_config w self =
    (r, {| agent_id := agent_id self; agent_user_id := agent_user_id self;
           last_seen_timestamp := last_seen_timestamp self;
           processed_message_ids := processed_message_ids self;
           agent_config := cfg; llm_client := llm;
           effects := effects self ++ [GetAgents] |})
    /\ encoding_only r.
Proof.
  unfold fetch_agent_config, try_except. step.
  destruct (agents_reply w _) as [agents|]; cbv beta iota; [|by do 3 eexists].
  step.
  destruct (List.find _ agents) as [agent|]; cbv beta iota.
  2:{ step. destruct (printable w _); by do 3 eexists. }
  step.
  destruct (bool_decide (provider _ = _)); cbv beta iota zeta; [|by do 3 eexists].
  destruct (truthy _); cbv beta iota; [|by do 3 eexists].
  unfold configure_llm. do 2 step.
  cbn [llm_client set_llm_client].
  destruct (client_reply w _ _) as [text|]; step.
  - step. destruct (printable w text); by do 3 eexists.
  - step. destruct (printable w _); by do 3 eexists.
Qed.

(** [send_message] makes the post and returns. *)
Lemma send_message_spec content reply_to_id self :
  send_message w content reply_to_id self =
  (Returns (post_reply w (length (effects self)) && printable w (take 50 content))%bool,
   set_effects
     (effects self ++
      [PostMessage content
         (if truthy (default [] reply_to_id) then reply_to_id else None)]) self).
Proof.
  unfold send_message, try_except. rewrite call_bind.
  destruct (post_reply w _); [|done].
  rewrite print_bind. by destruct (printable w _).
Qed.

(** The [try] and [except] of [generate_reply]. *)
Lemma generate_reply_try request self :
  try_except
    (r ← call request (chat_reply w);
     match r with
     | Completion response =>
         print w (default (lit "None") response);;
         let cleaned := strip_special_tags (default [] response) in
         print w (take 100 cleaned);;
         mret cleaned
     | Raised e => raise (ClientError e)
     end)
    (fun e => print_exn w e;; mret (failure_prefix ++ describe e)) self
  = (reply_outcome w (chat_reply w (length (effects self))),
     set_effects (effects self ++ [request]) self).
Proof.
  unfold try_except. rewrite call_bind. unfold reply_outcome.
  destruct (chat_reply w _) as [response|e].
  - rewrite print_bind. destruct (printable w (default _ response)); [|done].
    cbv zeta. rewrite print_bind. by destruct (printable w (take 100 _)).
  - cbn [raise]. rewrite print_exn_bind. cbn [describe].
    by destruct (printable w e).
Qed.

(** [generate_reply] prints the prompt, and then makes one call. *)
Lemma generate_reply_unfold context self :
  let cfg := agent_config self in
  let prompt := or_else (cfg ≫= systemPrompt) default_system_prompt in
  let model_config :=
    match cfg with
    | Some c => default no_model (model c)
    | None => no_model
    end in
  let model := default (lit "default") (model_name model_config) in
  let turns := {| role := system; turn_content := prompt |} :: context in
  exists text,
    generate_reply w context self =
    if (printable w model && forallb (fun t => printable w (turn_content t)) turns)%bool
    then (reply_outcome w (chat_reply w (length (effects self))),
          set_effects
            (effects self ++
             [ChatCompletion turns model
                (default 1024 (maxTokens model_config))
                (default (6 # 10)%Q (temperature model_config))]) self)
    else (Raises (UnicodeEncodeError text), self).
Proof.
  cbv zeta. unfold generate_reply. rewrite gets_bind.
  match goal with
  | |- context [for_each ?turns _] =>
      destruct (for_each_print w turn_content turns self) as [text Hp]
  end.
  rewrite print_bind.
  destruct (printable w _); cbn [andb]; [|by eexists].
  exists text. rewrite bind_run, Hp.
  destruct (forallb _ _); [|done]. cbn [fst snd].
  apply generate_reply_try.
Qed.

Lemma generate_reply_spec context self :
  exists prompt model max_tokens temp text,
    let turns := {| role := system; turn_content := prompt |} :: context in
    generate_reply w context self =
    if (printable w model && forallb (fun t => printable w (turn_content t)) turns)%bool
    then (reply_outcome w (chat_reply w (length (effects self))),
          set_effects
            (effects self ++ [ChatCompletion turns model max_tokens temp]) self)
    else (Raises (UnicodeEncodeError text), self).
Proof.
  destruct (generate_reply_unfold context self) as [text E]. cbv zeta in E.
  do 4 eexists. exists text. exact E.
Qed.

(** When the texts on the way can be printed, the reply is [reply_of]. *)
Lemma reply_outcome_printed r :
  match r with
  | Completion response =>
      printable w (default (lit "None") response) = true
      /\ printable w (take 100 (strip_special_tags (default [] response))) = true
  | Raised e => printable w e = true
  end ->
  reply_outcome w r = Returns (reply_of r).
Proof.
  unfold reply_outcome, reply_of. destruct r as [response|e].
  - intros [-> ->]. reflexivity.
  - intros ->. reflexivity.
Qed.

Lemma reply_outcome_encoding r : encoding_only (reply_outcome w r).
Proof.
  unfold reply_outcome. destruct r as [response|e].
  - cbv zeta. by repeat destruct (printable w _).
  - by destruct (printable w e).
Qed.

(** [process_message] on a message that passes the three tests. *)
Lemma process_message_unfold self m msgs users :
  senderId m <> Some (agent_user_id self) ->
  msg_id m ∉ processed_message_ids self ->
  is_mentioned self m users = true ->
  process_message tbl w m msgs users self =
  if printable w (take 50 (default [] (content m))) then
    match fetch_agent_config w self with
    | (Returns _, s1) =>
        match generate_reply w (build_context tbl self msgs users m) s1 with
        | (Returns reply, s2) =>
            (Returns tt,
             set_processed_message_ids ({[ msg_id m ]} ∪ processed_message_ids s2)
               (set_effects (effects s2 ++ [PostMessage reply (reply_ref m)]) s2))
        | (Raises e, s2) => (Raises e, s2)
        end
    | (Raises e, s1) => (Raises e, s1)
    end
  else
    (Raises (UnicodeEncodeError (encode_error w (take 50 (default [] (content m))))),
     self).
Proof.
  intros Hs Hp Hm. unfold process_message. step.
  rewrite bool_decide_eq_false_2 by done.
  rewrite bool_decide_eq_false_2 by done.
  rewrite Hm. cbn [negb]. step.
  destruct (printable w _); [|done].
  rewrite bind_run.
  destruct (fetch_agent_config_spec self) as (r & cfg & llm & E & _).
  rewrite E. cbn [fst snd]. destruct r as [r|e]; [|done].
  step. rewrite bind_run.
  erewrite build_context_agent by reflexivity.
  destruct (generate_reply w _ _) as [[reply|e] s2]; cbn [fst snd]; [|done].
  rewrite bind_run, send_message_spec. cbn [fst snd]. reflexivity.
Qed.

(** The three ways in which [process_message] ends: the message is
    skipped; an exception ends the reply before the post; the reply is
    posted and the message marked processed. *)
Lemma process_message_cases self m msgs users :
  ((senderId m = Some (agent_user_id self)
    \/ msg_id m ∈ processed_message_ids self
    \/ is_mentioned self m users = false)
   /\ process_message tbl w m msgs users self = (Returns tt, self))
  \/ (senderId m <> Some (agent_user_id self)
      /\ (msg_id m ∉ processed_message_ids self)
      /\ is_mentioned self m users = true
      /\ ((exists text cfg llm es,
             process_message tbl w m msgs users self =
             (Raises (UnicodeEncodeError text),
              {| agent_id := agent_id self; agent_user_id := agent_user_id self;
                 last_seen_timestamp := last_seen_timestamp self;
                 processed_message_ids := processed_message_ids self;
                 agent_config := cfg; llm_client := llm;
                 effects := effects self ++ es |})
             /\ (es = [] \/ es = [GetAgents]
                 \/ exists prompt model max_tokens temp,
                      es = [GetAgents;
                            ChatCompletion
                              ({| role := system; turn_content := prompt |}
                               :: build_context tbl self msgs users m)
                              model max_tokens temp]
                      /\ reply_outcome w (chat_reply w (S (length (effects self))))
                         = Raises (UnicodeEncodeError text)))
          \/ (exists cfg llm prompt model max_tokens temp reply,
                process_message tbl w m msgs users self =
                (Returns tt,
                 {| agent_id := agent_id self; agent_user_id := agent_user_id self;
                    last_seen_timestamp := last_seen_timestamp self;
                    processed_message_ids := {[ msg_id m ]} ∪ processed_message_ids self;
                    agent_config := cfg; llm_client := llm;
                    effects := effects self ++
                      [GetAgents;
                       ChatCompletion
                         ({| role := system; turn_content := prompt |}
                          :: build_context tbl self msgs users m) model max_tokens temp;
                       PostMessage reply (reply_ref m)] |})
                /\ reply_outcome w (chat_reply w (S (length (effects self))))
                   = Returns reply))).
Proof.
  destruct (decide (senderId m = Some (agent_user_id self))) as [Hs|Hs].
  { left. split; [by left|]. by apply process_message_self_sent. }
  destruct (decide (msg_id m ∈ processed_message_ids self)) as [Hp|Hp].
  { left. split; [right; by left|]. by apply process_message_seen. }
  destruct (is_mentioned self m users) eqn:Hm.
  2:{ left. split; [right; by right|]. by apply process_message_not_mentioned. }
  right. split; [done|]. split; [done|]. split; [done|].
  rewrite (process_message_unfold self m msgs users Hs Hp Hm).
  destruct (printable w (take 50 _)).
  2:{ left. exists (encode_error w (take 50 (default [] (content m)))),
        (agent_config self), (llm_client self), [].
      rewrite app_nil_r. split; [by destruct self|by left]. }
  destruct (fetch_agent_config_spec self) as (r & cfg & llm & -> & Hr).
  destruct r as [r|e].
  2:{ left. destruct e as [text|text]; [|done].
      exists text, cfg, llm, [GetAgents]. split; [done|]. right. by left. }
  match goal with
  | |- context [generate_reply w ?c ?s] =>
      destruct (generate_reply_spec c s) as (prompt & model & mt & temp & text & ->)
  end.
  destruct (_ && _)%bool.
  2:{ left. exists text, cfg, llm, [GetAgents]. split; [done|]. right. by left. }
  cbn [effects]. rewrite length_app. cbn [length].
  rewrite Nat.add_1_r.
  pose proof (reply_outcome_encoding (chat_reply w (S (length (effects self))))) as He.
  destruct (reply_outcome w _) as [reply|e] eqn:Er.
  - right. exists cfg, llm, prompt, model, mt, temp, reply.
    split; [|done]. unfold set_processed_message_ids, set_effects. cbn.
    by rewrite <- !app_assoc.
  - left. destruct e as [text'|text']; [|done].
    exists text', cfg, llm. eexists. split.
    + unfold set_effects. cbn. rewrite <- app_assoc. reflexivity.
    + right. right. by exists prompt, model, mt, temp.
Qed.

(** Whatever the branch: the ledger only grows, the watermark is not
    touched, and at most one reply is posted, to [m]. *)
Lemma process_message_frame self m msgs users :
  let self' := exec (process_message tbl w m msgs users) self in
  agent_id self' = agent_id self /\ agent_user_id self' = agent_user_id self /\
  last_seen_timestamp self' = last_seen_timestamp self /\
  processed_message_ids self ⊆ processed_message_ids self' /\
  encoding_only (process_message tbl w m msgs users self).1 /\
  exists es, effects self' = effects self ++ es /\
    replies es `sublist_of` [reply_ref m].
Proof.
  unfold exec.
  destruct (process_message_cases self m msgs users)
    as [[_ E]|(_ & _ & _ & [(text & cfg & llm & es & E & Hes)
                       |(cfg & llm & prompt & model & mt & temp & reply & E & _)])];
    rewrite E; cbn [fst snd agent_id agent_user_id last_seen_timestamp
                    processed_message_ids effects encoding_only].
  - repeat split; try done. exists []. rewrite app_nil_r. split; [done|].
    apply sublist_nil_l.
  - repeat split; try done. exists es. split; [done|].
    destruct Hes as [->|[->|(? & ? & ? & ? & -> & _)]]; apply sublist_nil_l.
  - repeat split; try done; [set_solver|].
    eexists. split; [done|]. done.
Qed.

End Methods.

(** ** One turn of the loop, and many *)

Lemma foldr_max_swap (l : list Z) a b :
  Z.max b (foldr Z.max a l) = Z.max a (foldr Z.max b l).
Proof. induction l as [|x l IH]; simpl; lia. Qed.

Lemma foldr_max_le (l : list Z) a : a <= foldr Z.max a l.
Proof. induction l as [|x l IH]; simpl; lia. Qed.

Lemma foldr_max_bound (l : list Z) a x : x ∈ l -> x <= foldr Z.max a l.
Proof.
  induction l as [|y l IH]; intros H; [by apply elem_of_nil in H|].
  apply elem_of_cons in H as [->|H]; simpl; [lia|]. specialize (IH H). lia.
Qed.

(** The watermark after a fetch of a non-empty list. *)
Lemma max_latest wm m ms :
  Z.max wm (latest (m :: ms)) = foldr Z.max wm (ts <$> m :: ms).
Proof.
  unfold latest. rewrite fold_symmetric by (intros; lia).
  change (ts <$> m :: ms) with (ts m :: List.map ts ms). simpl foldr.
  apply foldr_max_swap.
Qed.

Lemma new_messages_elem self msgs m :
  m ∈ new_messages self msgs <->
  m ∈ msgs /\ last_seen_timestamp self < ts m /\
  msg_id m ∉ processed_message_ids self.
Proof.
  unfold new_messages. rewrite !list_elem_of_In, filter_In.
  rewrite andb_true_iff, Z.ltb_lt, bool_decide_eq_true. tauto.
Qed.


Section Loop.
Variable tbl : char -> bool.
Variable w : World.

Lemma for_each_frame msgs users l self :
  let self' := exec (for_each l (fun msg => process_message tbl w msg msgs users)) self in
  agent_id self' = agent_id self /\ agent_user_id self' = agent_user_id self /\
  last_seen_timestamp self' = last_seen_timestamp self /\
  processed_message_ids self ⊆ processed_message_ids self' /\
  encoding_only (for_each l (fun msg => process_message tbl w msg msgs users) self).1 /\
  exists es, effects self' = effects self ++ es /\
    replies es `sublist_of` (reply_ref <$> l).
Proof.
  revert self. induction l as [|m l IH]; intros self.
  - simpl. repeat split; try done. exists []. by rewrite app_nil_r.
  - cbn [for_each]. unfold exec. rewrite bind_run.
    pose proof (process_message_frame tbl w self m msgs users) as H.
    unfold exec in H. cbv zeta in H.
    destruct H as (Ha & Hu & Hl & Hp & Hr & es1 & He1 & Hr1).
    destruct (process_message tbl w m msgs users self) as [[[]|e] s1].
    + specialize (IH s1). unfold exec in IH. cbv zeta in IH. cbn [fst snd] in *.
      destruct IH as (Ha' & Hu' & Hl' & Hp' & Hr' & es2 & He2 & Hr2).
      cbv zeta. rewrite Ha', Hu', Hl', Ha, Hu, Hl. repeat split; try done.
      * set_solver.
      * exists (es1 ++ es2). rewrite He2, He1, app_assoc. split; [done|].
        rewrite replies_app.
        change (reply_ref <$> m :: l) with ([reply_ref m] ++ (reply_ref <$> l)).
        by apply sublist_app.
    + cbn [fst snd] in *. cbv zeta. repeat split; try done.
      exists es1. split; [done|].
      change (reply_ref <$> m :: l) with ([reply_ref m] ++ (reply_ref <$> l)).
      rewrite <- (app_nil_r (replies es1)). apply sublist_app; [done|].
      apply sublist_nil_l.
Qed.

Lemma fetch_messages_spec self :
  fetch_messages w self =
  (Returns (default ([], []) (messages_reply w (length (effects self)))),
   set_effects (effects self ++ [GetMessages]) self).
Proof.
  unfold fetch_messages. rewrite call_bind.
  by destruct (messages_reply w _) as [[ms us]|].
Qed.

Lemma fetched_spec self :
  fetched w self = default ([], []) (messages_reply w (length (effects self))).
Proof. unfold fetched. by rewrite fetch_messages_spec. Qed.

(** The [try] block, step by step. *)
Lemma poll_body_unfold self :
  poll_body tbl w self =
  let s1 := set_effects (effects self ++ [GetMessages]) self in
  match fetched w self with
  | ([], _) => (Returns tt, s1)
  | (m :: ms, users) =>
      match for_each (new_messages self (m :: ms))
              (fun msg => process_message tbl w msg (m :: ms) users) s1 with
      | (Returns _, s2) =>
          (Returns tt,
           set_last_seen_timestamp
             (foldr Z.max (last_seen_timestamp self) (ts <$> m :: ms)) s2)
      | (Raises e, s2) => (Raises e, s2)
      end
  end.
Proof.
  rewrite fetched_spec. unfold poll_body.
  rewrite bind_run, fetch_messages_spec. cbn [fst snd].
  destruct (default ([], []) (messages_reply w (length (effects self))))
    as [[|m ms] users]; [done|].
  rewrite gets_bind, bind_run. cbv zeta.
  change (new_messages (set_effects (effects self ++ [GetMessages]) self) (m :: ms))
    with (new_messages self (m :: ms)).
  pose proof (for_each_frame (m :: ms) users (new_messages self (m :: ms))
                (set_effects (effects self ++ [GetMessages]) self)) as H.
  cbv zeta in H. unfold exec in H. destruct H as (_ & _ & Hl & _).
  destruct (for_each _ _ _) as [[[]|e] s2]; cbn [fst snd] in *; [|done].
  unfold modify. rewrite Hl. cbn [last_seen_timestamp set_effects].
  by rewrite max_latest.
Qed.

(** An exception of the [try] block is a [UnicodeEncodeError]. *)
Lemma poll_body_encoding self : encoding_only (poll_body tbl w self).1.
Proof.
  rewrite poll_body_unfold. cbv zeta.
  destruct (fetched w self) as [[|m ms] users]; [done|].
  pose proof (for_each_frame (m :: ms) users (new_messages self (m :: ms))
                (set_effects (effects self ++ [GetMessages]) self)) as H.
  cbv zeta in H. destruct H as (_ & _ & _ & _ & H & _).
  by destruct (for_each _ _ _) as [[[]|e] s2].
Qed.

(** The turn never raises, and ends in the state of its [try] block. *)
Lemma poll_cycle_spec self :
  poll_cycle tbl w self = (Returns tt, (poll_body tbl w self).2).
Proof.
  unfold poll_cycle, try_except.
  pose proof (poll_body_encoding self) as H.
  destruct (poll_body tbl w self) as [[[]|e] s]; [done|].
  by destruct e.
Qed.

Lemma poll_cycle_unfold self :
  exec (poll_cycle tbl w) self =
  let s1 := set_effects (effects self ++ [GetMessages]) self in
  match fetched w self with
  | ([], _) => s1
  | (m :: ms, users) =>
      match for_each (new_messages self (m :: ms))
              (fun msg => process_message tbl w msg (m :: ms) users) s1 with
      | (Returns _, s2) =>
          set_last_seen_timestamp
            (foldr Z.max (last_seen_timestamp self) (ts <$> m :: ms)) s2
      | (Raises _, s2) => s2
      end
  end.
Proof.
  unfold exec. rewrite poll_cycle_spec, poll_body_unfold. cbv zeta. cbn [snd].
  destruct (fetched w self) as [[|m ms] users]; [done|].
  by destruct (for_each _ _ _) as [[[]|e] s2].
Qed.

Lemma poll_cycle_frame self :
  let self' := exec (poll_cycle tbl w) self in
  let msgs := (fetched w self).1 in
  agent_id self' = agent_id self /\ agent_user_id self' = agent_user_id self /\
  (last_seen_timestamp self' =
     match (poll_body tbl w self).1 with
     | Returns _ => foldr Z.max (last_seen_timestamp self) (ts <$> msgs)
     | Raises _ => last_seen_timestamp self
     end) /\
  processed_message_ids self ⊆ processed_message_ids self' /\
  exists es, effects self' = effects self ++ GetMessages :: es /\
    replies es `sublist_of` (reply_ref <$> new_messages self msgs).
Proof.
  cbv zeta. rewrite poll_cycle_unfold, poll_body_unfold. cbv zeta.
  destruct (fetched w self) as [[|m ms] users]; cbn [fst snd].
  - repeat split; try done. exists []. split; [done|]. apply sublist_nil_l.
  - pose proof (for_each_frame (m :: ms) users (new_messages self (m :: ms))
                  (set_effects (effects self ++ [GetMessages]) self)) as H.
    cbv zeta in H. unfold exec in H.
    destruct (for_each _ _ _) as [[[]|e] s2]; cbn [fst snd] in *;
      destruct H as (Ha & Hu & Hl & Hp & _ & es & He & Hr);
      cbn [agent_id agent_user_id last_seen_timestamp processed_message_ids effects
           set_effects set_last_seen_timestamp] in *;
      (repeat split; try done); exists es; rewrite He, <- app_assoc; done.
Qed.

End Loop.

Section Run.
Variable tbl : char -> bool.
Variable w : World.

Lemma run_spec n self : run tbl w n self = (Returns tt, exec (run tbl w n) self).
Proof.
  revert self. induction n as [|n IH]; intros self; [done|].
  unfold exec. cbn [run]. rewrite bind_run, poll_cycle_spec. cbn [fst snd].
  by rewrite IH.
Qed.

Lemma run_snoc n self :
  exec (run tbl w (S n)) self = exec (poll_cycle tbl w) (exec (run tbl w n) self).
Proof.
  revert self. induction n as [|n IH]; intros self.
  - unfold exec. cbn [run]. rewrite bind_run, !poll_cycle_spec. reflexivity.
  - unfold exec in *. cbn [run] in *.
    rewrite bind_run, poll_cycle_spec. cbn [fst snd].
    rewrite IH. rewrite (bind_run (poll_cycle tbl w) _ self), !poll_cycle_spec.
    reflexivity.
Qed.

Lemma poll_cycle_watermark self :
  last_seen_timestamp self <= last_seen_timestamp (exec (poll_cycle tbl w) self).
Proof.
  destruct (poll_cycle_frame tbl w self) as (_ & _ & -> & _).
  destruct (poll_body tbl w self).1; [apply foldr_max_le|lia].
Qed.

Lemma run_frame n self :
  let self' := exec (run tbl w n) self in
  agent_id self' = agent_id self /\ agent_user_id self' = agent_user_id self /\
  last_seen_timestamp self <= last_seen_timestamp self' /\
  processed_message_ids self ⊆ processed_message_ids self'.
Proof.
  induction n as [|n IH]; [by simpl|]. cbv zeta in *. rewrite run_snoc.
  destruct IH as (Ha & Hu & Hl & Hp).
  destruct (poll_cycle_frame tbl w (exec (run tbl w n) self))
    as (Ha' & Hu' & _ & Hp' & _).
  pose proof (poll_cycle_watermark (exec (run tbl w n) self)).
  rewrite Ha', Hu'. repeat split; try done; [lia|set_solver].
Qed.

Lemma run_answers now n self :
  now <= last_seen_timestamp self ->
  Forall (answers_newer w now) (effects self) ->
  Forall (answers_newer w now) (effects (exec (run tbl w n) self)).
Proof.
  intros Hnow H0. induction n as [|n IH]; [done|]. rewrite run_snoc.
  pose proof (run_frame n self) as (_ & _ & Hl & _). cbv zeta in Hl.
  set (s := exec (run tbl w n) self) in *.
  destruct (poll_cycle_frame tbl w s) as (_ & _ & _ & _ & es & -> & Hr).
  apply Forall_app. split; [done|]. constructor; [done|].
  apply Forall_forall. intros e He. destruct e; try done. simpl.
  apply replies_post in He.
  eapply elem_of_sublist in He; [|exact Hr].
  apply list_elem_of_fmap in He as (m & -> & Hm).
  apply new_messages_elem in Hm as (Hin & Hts & _).
  rewrite fetched_spec in Hin.
  destruct (messages_reply w (length (effects s))) as [[msgs users]|] eqn:E.
  - exists (length (effects s)), msgs, users, m. simpl in Hin.
    repeat split; try done. lia.
  - simpl in Hin. by apply elem_of_nil in Hin.
Qed.

End Run.

(** ** The processing ledger *)

Import Sample.

(** C1 (idempotence, at most one reply). A message whose identifier is
    in the processed set, or for which [process_message] has gone
    through its pipeline and returned, is skipped by every later
    invocation, however many poll cycles lie in between: the
    invocation returns the state it was given, so it makes no call (no
    post, no configuration fetch) and leaves the watermark, the
    processed set and the cached configuration as they were. *)
Theorem process_message_idempotent tbl w self n m' msgs' users' :
  let skipped s := process_message tbl w m' msgs' users' s = (Returns tt, s) in
  (forall m, msg_id m' = msg_id m ->
     msg_id m ∈ processed_message_ids self ->
     skipped (exec (run tbl w n) self))
  /\ (forall m msgs users, msg_id m' = msg_id m ->
        senderId m <> Some (agent_user_id self) ->
        is_mentioned self m users = true ->
        returns (process_message tbl w m msgs users) self ->
        skipped (exec (run tbl w n) (exec (process_message tbl w m msgs users) self))).
Proof.
  cbv zeta. split.
  - intros m Hid Hin. apply process_message_seen. rewrite Hid.
    destruct (run_frame tbl w n self) as (_ & _ & _ & Hp). by apply Hp.
  - intros m msgs users Hid Hs Hm [[] Hret]. apply process_message_seen. rewrite Hid.
    destruct (run_frame tbl w n (exec (process_message tbl w m msgs users) self))
      as (_ & _ & _ & Hp).
    apply Hp. unfold exec.
    destruct (process_message_cases tbl w self m msgs users)
      as [[Hskip E]|(_ & Hin & _ & [(text & cfg & llm & es & E & _)
                           |(cfg & llm & prompt & model & mt & temp & reply & E & _)])];
      rewrite E in *; cbn [fst snd processed_message_ids] in *.
    + destruct Hskip as [H|[H|H]]; [done|done|]. by rewrite Hm in H.
    + done.
    + set_solver.
Qed.

Lemma process_message_idempotent_witness :
  let s := exec (run ascii_only unordered 2) (exec (process_message ascii_only unordered late [late; early] [bot]) service) in
  senderId late <> Some (agent_user_id service)
  /\ is_mentioned service late [bot] = true
  /\ returns (process_message ascii_only unordered late [late; early] [bot]) service
  /\ process_message ascii_only unordered late [late; early] [bot] s = (Returns tt, s).
Proof.
  cbv zeta. split; [discriminate|]. split; [reflexivity|].
  assert (H : returns (process_message ascii_only unordered late [late; early] [bot])
                service).
  { exists tt. by vm_compute. }
  split; [exact H|].
  apply (proj2 (process_message_idempotent ascii_only unordered service 2 late
                  [late; early] [bot]) late [late; early] [bot]).
  - reflexivity.
  - discriminate.
  - reflexivity.
  - exact H.
Defined.

(** C3 (self-mute). A message sent by the agent itself is skipped,
    whatever its mentions and its content: no call is made, nothing is
    posted, and its identifier is not added to the processed set. *)
Theorem process_message_self_mute tbl w self m msgs users :
  senderId m = Some (agent_user_id self) ->
  process_message tbl w m msgs users self = (Returns tt, self)
  /\ effects (exec (process_message tbl w m msgs users) self) = effects self
  /\ processed_message_ids (exec (process_message tbl w m msgs users) self)
     = processed_message_ids self.
Proof.
  intros H. unfold exec. by rewrite process_message_self_sent.
Qed.

Lemma process_message_self_mute_witness :
  senderId own = Some (agent_user_id service)
  /\ is_mentioned service own [bot] = true
  /\ process_message ascii_only ordered own [own] [bot] service = (Returns tt, service).
Proof.
  split; [reflexivity|]. split; [reflexivity|].
  apply (process_message_self_mute ascii_only ordered service own [own] [bot]).
  reflexivity.
Defined.

(** ** The watermark *)

(** A turn in which every dispatched message is skipped goes through
    its [try] block. *)
Lemma quiet_dispatch_returns tbl w msgs users l self :
  Forall (fun m => is_mentioned self m users = false) l ->
  for_each l (fun msg => process_message tbl w msg msgs users) self = (Returns tt, self).
Proof.
  induction 1 as [|m l Hm _ IH]; [done|].
  cbn [for_each]. rewrite bind_run, process_message_not_mentioned by done.
  exact IH.
Qed.

(** C2, as the code has it. A poll cycle whose [try] block goes through
    sets the watermark to the maximum of the old watermark and the
    timestamps of all the fetched messages, dispatched or not, so that
    no fetched message is newer than the new watermark; this is so in
    particular when no dispatched message mentions the agent. A cycle
    in which a dispatch raises leaves the watermark as it was. In both
    cases the watermark never decreases from one cycle to the next. *)
Theorem watermark_monotone tbl w self n :
  let after := exec (poll_cycle tbl w) self in
  let msgs := (fetched w self).1 in
  (returns (poll_body tbl w) self ->
   last_seen_timestamp after = foldr Z.max (last_seen_timestamp self) (ts <$> msgs)
   /\ Forall (fun m => ts m <= last_seen_timestamp after) msgs)
  /\ (Forall (fun m => is_mentioned self m (fetched w self).2 = false)
        (new_messages self msgs) ->
      returns (poll_body tbl w) self)
  /\ (~ returns (poll_body tbl w) self ->
      last_seen_timestamp after = last_seen_timestamp self)
  /\ last_seen_timestamp self <= last_seen_timestamp after
  /\ last_seen_timestamp (exec (run tbl w n) self)
     <= last_seen_timestamp (exec (run tbl w (S n)) self).
Proof.
  cbv zeta.
  destruct (poll_cycle_frame tbl w self) as (_ & _ & Hstep & _).
  split; [|split; [|split; [|split]]].
  - intros [[] Hret]. rewrite Hret in Hstep. split; [exact Hstep|].
    rewrite Hstep. apply Forall_forall. intros m Hm.
    apply foldr_max_bound. apply list_elem_of_fmap. eauto.
  - intros Hall. unfold returns. rewrite poll_body_unfold. cbv zeta.
    destruct (fetched w self) as [[|m ms] users]; cbn [fst snd] in *; [by exists tt|].
    rewrite quiet_dispatch_returns; [by exists tt|].
    eapply Forall_impl; [exact Hall|]. done.
  - intros Hret. rewrite Hstep.
    destruct (poll_body tbl w self).1 as [[]|e] eqn:E; [|done].
    exfalso. apply Hret. by exists tt.
  - apply poll_cycle_watermark.
  - rewrite run_snoc. apply poll_cycle_watermark.
Qed.

Lemma watermark_monotone_witness :
  returns (poll_body ascii_only ordered) service
  /\ last_seen_timestamp (exec (poll_cycle ascii_only ordered) service) = 200.
Proof.
  assert (H : returns (poll_body ascii_only ordered) service).
  { exists tt. by vm_compute. }
  split; [exact H|].
  rewrite (proj1 (proj1 (watermark_monotone ascii_only ordered service 0) H)).
  reflexivity.
Defined.

(** C2, as the claim has it, fails: the fetch returns a mention whose
    content ends in a lone surrogate, of time 200, and a message of
    time 100; the watermark is 50. The print of the content raises, the
    handler of the loop ends the cycle, and the watermark is still 50,
    below both timestamps; nothing was posted or marked processed. *)
Lemma watermark_stuck_counterexample :
  let after := exec (poll_cycle ascii_only poisoned) service in
  let msgs := (fetched poisoned service).1 in
  msgs = [garbled; early]
  /\ last_seen_timestamp service = 50
  /\ foldr Z.max (last_seen_timestamp service) (ts <$> msgs) = 200
  /\ last_seen_timestamp after = 50
  /\ last_seen_timestamp after
     <> foldr Z.max (last_seen_timestamp service) (ts <$> msgs)
  /\ effects after = [GetMessages].
Proof. cbv zeta. repeat split; by vm_compute. Qed.

(** C10 (startup cutoff). The watermark starts at the start time and
    stays at or above it; so in every state the loop reaches, the
    messages it would dispatch are all newer than the start time, and
    every reply posted so far answers a fetched message that is newer
    than the start time. *)
Theorem startup_cutoff tbl w now agent user_ n :
  let self := exec (run tbl w n) (init now agent user_) in
  last_seen_timestamp (init now agent user_) = now
  /\ now <= last_seen_timestamp self
  /\ (forall msgs, Forall (fun m => now < ts m) (new_messages self msgs))
  /\ Forall (answers_newer w now) (effects self).
Proof.
  cbv zeta. split; [done|].
  destruct (run_frame tbl w n (init now agent user_)) as (_ & _ & Hl & _).
  simpl in Hl. repeat split.
  - done.
  - intros msgs. apply Forall_forall. intros m Hm.
    apply new_messages_elem in Hm as (_ & Hts & _). lia.
  - apply run_answers; simpl; [lia|constructor].
Qed.

(** ** Dispatch order *)





(** ** The context window *)




(** ** Mentions in the context *)




(** ** Mention detection *)

(** C7 (mention detection). A message is a mention exactly when its
    mentions list has the agent's user identifier, or a user of the
    list with that identifier has a non-empty name [D] and the content
    has ["@" ++ D] as a substring. For the user [Bot], the content
    ["@Bob hey @Bot can you help"] is a mention and ["hello everyone"]
    is not. *)
Theorem mention_detection :
  (forall self message users,
     is_mentioned self message users = true <->
     (agent_user_id self ∈ default [] (mentions message)
      \/ exists u D pre post,
           u ∈ users /\ user_id u = agent_user_id self /\
           user_name u = Some D /\ D <> [] /\
           default [] (content message) = pre ++ (0x40%N :: D) ++ post))
  /\ is_mentioned (init 0 AGENT_ID (lit "llm1"))
       (message "m1" "u1" "@Bob hey @Bot can you help" 1) [bot] = true
  /\ is_mentioned (init 0 AGENT_ID (lit "llm1"))
       (message "m2" "u1" "hello everyone" 2) [bot] = false.
Proof.
  split; [exact is_mentioned_spec|]. split; by vm_compute.
Qed.

(** ** Replies *)

(** C9 (sanitization examples). *)
Theorem strip_special_tags_examples :
  strip_special_tags
    (lit "<|channel|>analysis<|message|>ignored<|end|><|start|>assistant<|channel|>final<|message|>Hello<|end|>")
  = lit "Hello"
  /\ strip_special_tags (lit "<think>reasoning</think>Answer") = lit "Answer".
Proof. split; by vm_compute. Qed.

(** When the call to the model raises and the text of the exception
    can be printed, the [except] branch of [generate_reply] returns the
    fixed text of the source followed by the text of the exception.
    The reply is not empty and has that text in it; a
    [process_message] that has come to the call posts it in reply to
    the triggering message and marks the message processed. *)
Lemma llm_failure_fallback tbl w self m msgs users e :
  senderId m <> Some (agent_user_id self) ->
  msg_id m ∉ processed_message_ids self ->
  is_mentioned self m users = true ->
  chat_reply w (S (length (effects self))) = Raised e ->
  printable w e = true ->
  let reply := failure_prefix ++ e in
  let self' := exec (process_message tbl w m msgs users) self in
  reply_outcome w (Raised e) = Returns reply
  /\ reply <> [] /\ contains e reply = true
  /\ (Exists (fun call => is_completion call = true)
        (drop (length (effects self)) (effects self')) ->
      (process_message tbl w m msgs users self).1 = Returns tt
      /\ (exists es, effects self' = effects self ++ es ++ [PostMessage reply (reply_ref m)])
      /\ replies (drop (length (effects self)) (effects self')) = [reply_ref m]
      /\ msg_id m ∈ processed_message_ids self').
Proof.
  intros Hs Hp Hm He Hpr. cbv zeta. split; [|split; [|split]].
  - unfold reply_outcome. by rewrite Hpr.
  - done.
  - apply contains_spec. exists failure_prefix, []. by rewrite app_nil_r.
  - unfold exec.
    destruct (process_message_cases tbl w self m msgs users)
      as [[Hskip E]|(_ & _ & _ & [(text & cfg & llm & es & E & Hes)
                           |(cfg & llm & prompt & model & mt & temp & reply & E & Hr)])];
      rewrite E; cbn [fst snd effects processed_message_ids].
    + destruct Hskip as [H|[H|H]]; [done|done|]. by rewrite Hm in H.
    + rewrite drop_app_length. intros Hex.
      destruct Hes as [->|[->|(? & ? & ? & ? & -> & Hr)]].
      * by apply Exists_nil in Hex.
      * apply Exists_cons in Hex as [Hex|Hex]; [done|]. by apply Exists_nil in Hex.
      * rewrite He in Hr. unfold reply_outcome in Hr. by rewrite Hpr in Hr.
    + intros _. rewrite He in Hr. unfold reply_outcome in Hr. rewrite Hpr in Hr.
      injection Hr as <-. rewrite drop_app_length.
      split; [done|]. split; [by eexists [_; _]|]. split; [done|]. set_solver.
Qed.

(** C8 fails on the code when the text of the exception cannot be
    printed: the print of the [except] branch raises in its turn, the
    exception leaves [generate_reply] and [process_message], no reply
    is posted and the message is not marked processed. *)
Theorem llm_failure_unprintable tbl w self m msgs users e :
  senderId m <> Some (agent_user_id self) ->
  msg_id m ∉ processed_message_ids self ->
  is_mentioned self m users = true ->
  chat_reply w (S (length (effects self))) = Raised e ->
  printable w e = false ->
  let self' := exec (process_message tbl w m msgs users) self in
  (forall context s,
     chat_reply w (length (effects s)) = Raised e ->
     exists text, (generate_reply w context s).1 = Raises (UnicodeEncodeError text))
  /\ (exists text,
        (process_message tbl w m msgs users self).1 = Raises (UnicodeEncodeError text))
  /\ replies (drop (length (effects self)) (effects self')) = []
  /\ processed_message_ids self' = processed_message_ids self
  /\ msg_id m ∉ processed_message_ids self'.
Proof.
  intros Hs Hp Hm He Hpr. cbv zeta.
  assert (Hout : reply_outcome w (Raised e)
                 = Raises (UnicodeEncodeError (encode_error w e))).
  { unfold reply_outcome. by rewrite Hpr. }
  split.
  - intros context s Hr.
    destruct (generate_reply_spec w context s)
      as (prompt & model & mt & temp & text & E).
    cbv zeta in E. rewrite E.
    destruct (_ && _)%bool; cbn [fst]; [|by eexists].
    rewrite Hr, Hout. by eexists.
  - unfold exec.
    destruct (process_message_cases tbl w self m msgs users)
      as [[Hskip E]|(_ & _ & _ & [(text & cfg & llm & es & E & Hes)
                           |(cfg & llm & prompt & model & mt & temp & reply & E & Hr)])];
      rewrite E; cbn [fst snd effects processed_message_ids].
    + destruct Hskip as [H|[H|H]]; [done|done|]. by rewrite Hm in H.
    + rewrite drop_app_length. split; [by eexists|]. split; [|done].
      by destruct Hes as [->|[->|(? & ? & ? & ? & -> & _)]].
    + by rewrite He, Hout in Hr.
Qed.

Lemma llm_failure_unprintable_witness :
  let self' := exec (process_message ascii_only failing early [early] [bot]) service in
  chat_reply failing (S (length (effects service))) = Raised (lit "boom " ++ [0xD83D%N])
  /\ printable failing (lit "boom " ++ [0xD83D%N]) = false
  /\ replies (drop (length (effects service)) (effects self')) = []
  /\ msg_id early ∉ processed_message_ids self'.
Proof.
  cbv zeta. split; [reflexivity|]. split; [reflexivity|].
  pose proof (llm_failure_unprintable ascii_only failing service early [early] [bot]
                (lit "boom " ++ [0xD83D%N])) as H.
  cbv zeta in H.
  destruct H as (_ & _ & Hr & _ & Hn).
  - discriminate.
  - apply not_elem_of_empty.
  - reflexivity.
  - reflexivity.
  - reflexivity.
  - split; [exact Hr|exact Hn].
Defined.

(** * Further properties *)

(** ** Trimming *)

Lemma lstrip_stops s : stops is_space (lstrip s).
Proof.
  induction s as [|c s IH]; simpl; [done|].
  destruct (is_space c) eqn:E; [done|]. simpl. done.
Qed.

Lemma lstrip_split s : exists sp, s = sp ++ lstrip s /\ Forall (fun c => is_space c = true) sp.
Proof.
  induction s as [|c s (sp & Hs & Hsp)]; simpl; [by exists []|].
  destruct (is_space c) eqn:E.
  - exists (c :: sp). split; [simpl; by f_equal|by constructor].
  - by exists [].
Qed.

Lemma strip_stops_last s : stops is_space (rev (strip s)).
Proof. unfold strip. rewrite rev_involutive. apply lstrip_stops. Qed.

Lemma strip_stops_head s : stops is_space (strip s).
Proof.
  unfold strip.
  destruct (lstrip_split (rev (lstrip s))) as (sp & Hs & _).
  pose proof (lstrip_stops s) as Hh.
  apply (f_equal (@rev char)) in Hs. rewrite rev_involutive, rev_app_distr in Hs.
  destruct (rev (lstrip (rev (lstrip s)))) as [|c u]; [done|].
  rewrite Hs in Hh. done.
Qed.

Lemma strip_all_space s : Forall (fun c => is_space c = true) s -> strip s = [].
Proof.
  intros H. unfold strip.
  assert (E : lstrip s = []) by (induction H as [|c s Hc _ IH]; simpl; [done|by rewrite Hc]).
  by rewrite E.
Qed.

Lemma strip_special_tags_scrub text :
  text <> [] ->
  strip_special_tags text = scrub (default text (search final_re text)).
Proof.
  intros H. unfold strip_special_tags, scrub. destruct text; [done|]. simpl negb.
  cbv iota. by destruct (search final_re _).
Qed.


(** ** Literals and scans *)

Lemma rmatch_lit l s g k :
  rmatch (Lit l) s g k = if starts_with l s then k (drop (length l) s) g else None.
Proof.
  revert s. induction l as [|c l IH]; intros s; [done|].
  cbn [Lit]. rewrite rmatch_cat, rmatch_chr. destruct s as [|x s]; [done|].
  cbn [starts_with]. unfold eqc. rewrite (N.eqb_sym c x).
  destruct (N.eqb x c); [|done]. simpl andb. by rewrite IH.
Qed.

Lemma matchless_tail r c s : matchless r (c :: s) -> matchless r s.
Proof. intros H a b ->. by apply (H (c :: a)). Qed.

Lemma sub_matchless r repl s : matchless r s -> sub r repl s = s.
Proof.
  unfold sub. induction s as [|c s IH]; intros H; [done|].
  rewrite sub_from_cons, (H [] (c :: s)) by done.
  by rewrite IH by by eapply matchless_tail.
Qed.

Lemma search_matchless r s : matchless r s -> search r s = None.
Proof.
  induction s as [|c s IH]; intros H; simpl.
  - by rewrite (H [] []).
  - rewrite (H [] (c :: s)) by done. apply IH. by eapply matchless_tail.
Qed.

(** A pattern that begins with the literal [c :: l] has no match in a
    text without [c]. *)
Lemma matchless_lit c l r s :
  Forall (fun x => x <> c) s -> matchless (Cat (Lit (c :: l)) r) s.
Proof.
  intros H a b ->. apply Forall_app in H as [_ H].
  unfold match_here. rewrite rmatch_cat, rmatch_lit.
  destruct b as [|x b]; [done|]. cbn [starts_with].
  apply Forall_cons in H as [Hx _].
  destruct (eqc c x) eqn:E; [|done]. apply eqc_eq in E. congruence.
Qed.

Lemma starts_with_take p s : starts_with p s = true <-> take (length p) s = p.
Proof.
  rewrite starts_with_spec. split.
  - intros [b ->]. by rewrite take_app_length.
  - intros H. exists (drop (length p) s).
    rewrite <- (take_drop (length p) s) at 1. by rewrite H.
Qed.

(** If [p] does not occur in [a] followed by all but the last character
    of [p], then no occurrence of [p] starts inside [a]. *)
Lemma no_early_start p a1 a2 rest :
  contains p ((a1 ++ a2) ++ removelast p) = false ->
  a2 <> [] ->
  starts_with p (a2 ++ p ++ rest) = false.
Proof.
  intros Hc Hne. destruct (starts_with p (a2 ++ p ++ rest)) eqn:E; [|done].
  exfalso. apply not_true_iff_false in Hc. apply Hc. clear Hc.
  apply contains_spec.
  destruct p as [|c p] using rev_ind.
  { exists [], ((a1 ++ a2) ++ removelast []). done. }
  clear IHp. rewrite removelast_last.
  apply starts_with_take in E.
  assert (Hlen : (length (p ++ [c]) <= length (a2 ++ p))%nat).
  { rewrite !length_app. simpl. destruct a2; [done|simpl; lia]. }
  replace (a2 ++ (p ++ [c]) ++ rest) with ((a2 ++ p) ++ [c] ++ rest) in E
    by (by rewrite <- !app_assoc).
  rewrite take_app_le in E by done.
  exists a1, (drop (length (p ++ [c])) (a2 ++ p)).
  rewrite <- app_assoc. f_equal.
  rewrite <- (take_drop (length (p ++ [c])) (a2 ++ p)) at 1. by rewrite E.
Qed.

Lemma rmatch_group a s g k :
  rmatch (Group a) s g k =
  rmatch a s g (fun s' _ => k s' (Some (take (length s - length s') s))).
Proof. reflexivity. Qed.

Lemma rmatch_star greedy a s g k :
  rmatch (Star greedy a) s g k = star_loop (rmatch a) greedy k (length s) s g.
Proof. reflexivity. Qed.

Lemma rmatch_alt a b s g k :
  rmatch (Alt a b) s g k =
  match rmatch a s g k with
  | Some x => Some x
  | None => rmatch b s g k
  end.
Proof. reflexivity. Qed.

Lemma rmatch_eos s g k : rmatch Eos s g k = if at_eos s then k s g else None.
Proof. reflexivity. Qed.

(** The lazy [.*?] stops at the first place where the rest of the
    pattern matches. *)
Lemma star_loop_lazy_any k n x y g :
  (forall x1 x2, x = x1 ++ x2 -> x2 <> [] -> k (x2 ++ y) g = None) ->
  is_Some (k y g) ->
  (length (x ++ y) <= n)%nat ->
  star_loop (rmatch (Set_ any_char)) false k n (x ++ y) g = k y g.
Proof.
  intros Hx Hy. revert n. induction x as [|c x IH]; intros n Hn.
  - destruct n as [|n]; [done|]. simpl. simpl in Hy. by destruct Hy as [r ->].
  - destruct n as [|n]; [simpl in Hn; lia|].
    cbn [star_loop]. cbv zeta. rewrite (Hx [] (c :: x)) by done.
    rewrite rmatch_set. simpl app. unfold any_char at 1. cbv iota.
    assert (Hlt : (length (x ++ y) <? length (c :: x ++ y))%nat = true)
      by (apply Nat.ltb_lt; simpl; lia).
    rewrite Hlt. apply IH.
    + intros x1 x2 -> Hne. by apply (Hx (c :: x1)).
    + simpl in Hn. lia.
Qed.

Lemma at_eos_long s : (2 <= length s)%nat -> at_eos s = false.
Proof. by destruct s as [|? [|? ?]]; simpl; [lia|lia|]. Qed.

Lemma search_skip r pre rest :
  (forall a b, pre = a ++ b -> b <> [] -> match_here r (b ++ rest) = None) ->
  search r (pre ++ rest) = search r rest.
Proof.
  induction pre as [|c pre IH]; intros H; [done|].
  change ((c :: pre) ++ rest) with (c :: (pre ++ rest)). cbn [search].
  change (c :: (pre ++ rest)) with ((c :: pre) ++ rest).
  rewrite (H [] (c :: pre)) by done. apply IH.
  intros a b -> Hb. by apply (H (c :: a)).
Qed.

Lemma search_here r s rest g : match_here r s = Some (rest, g) -> search r s = Some (default [] g).
Proof. intros H. destruct s; simpl; by rewrite H. Qed.

(** The search for the final channel, when its first marker is followed
    by a body and an end marker. *)
Lemma search_final pre body post :
  contains FINAL_MARK (pre ++ removelast FINAL_MARK) = false ->
  contains END_MARK (body ++ removelast END_MARK) = false ->
  search final_re (pre ++ FINAL_MARK ++ body ++ END_MARK ++ post) = Some body.
Proof.
  intros Hpre Hbody.
  assert (Hhere : match_here final_re (FINAL_MARK ++ body ++ END_MARK ++ post)
                  = Some (post, Some body)).
  { unfold match_here, final_re. fold FINAL_MARK END_MARK.
    rewrite rmatch_cat, rmatch_lit.
    assert (E : starts_with FINAL_MARK (FINAL_MARK ++ body ++ END_MARK ++ post) = true)
      by (apply starts_with_spec; eauto).
    rewrite E, drop_app_length. rewrite rmatch_cat, rmatch_group, rmatch_star.
    rewrite star_loop_lazy_any.
    - rewrite rmatch_alt, rmatch_lit.
      assert (E2 : starts_with END_MARK (END_MARK ++ post) = true)
        by (apply starts_with_spec; eauto).
      rewrite E2, drop_app_length. do 2 f_equal. f_equal.
      rewrite !length_app.
      replace (length body + (length END_MARK + length post)
               - (length END_MARK + length post))%nat with (length body) by lia.
      by rewrite take_app_length.
    - intros x1 x2 -> Hne. rewrite rmatch_alt, rmatch_lit, rmatch_eos.
      rewrite (no_early_start END_MARK x1 x2 post Hbody Hne).
      rewrite at_eos_long; [done|].
      rewrite !length_app. change (length END_MARK) with 7%nat. lia.
    - rewrite rmatch_alt, rmatch_lit.
      assert (E2 : starts_with END_MARK (END_MARK ++ post) = true)
        by (apply starts_with_spec; eauto).
      by rewrite E2.
    - done. }
  rewrite search_skip.
  - by rewrite (search_here _ _ _ _ Hhere).
  - intros a b -> Hb. unfold match_here, final_re. fold FINAL_MARK.
    rewrite rmatch_cat, rmatch_lit.
    by rewrite (no_early_start FINAL_MARK a b _ Hpre Hb).
Qed.

(** A text without [<] and without three newlines in a row has nothing
    for the patterns to match. *)
Lemma matchless_blank_lines s :
  contains [0x0A; 0x0A; 0x0A]%N s = false -> matchless blank_lines_re s.
Proof.
  intros H a b ->.
  destruct (match_here blank_lines_re b) as [r|] eqn:E; [|done]. exfalso.
  apply not_true_iff_false in H. apply H. apply contains_spec.
  unfold match_here, blank_lines_re, Plus in E.
  rewrite rmatch_cat, rmatch_chr in E.
  destruct b as [|x b]; [done|]. destruct (eqc x 10%N) eqn:E1; [|done].
  rewrite rmatch_cat, rmatch_chr in E.
  destruct b as [|y b]; [done|]. destruct (eqc y 10%N) eqn:E2; [|done].
  rewrite rmatch_cat, rmatch_chr in E.
  destruct b as [|z b]; [done|]. destruct (eqc z 10%N) eqn:E3; [|done].
  apply eqc_eq in E1, E2, E3. subst. by exists a, b.
Qed.

Lemma scrub_plain s :
  Forall (fun c => c <> 0x3C%N) s ->
  contains [0x0A; 0x0A; 0x0A]%N s = false ->
  search final_re s = None /\ scrub s = strip s.
Proof.
  intros Hlt Hnl. split.
  - apply search_matchless. by apply (matchless_lit 0x3C%N).
  - unfold scrub.
    rewrite (sub_matchless think_re) by by apply (matchless_lit 0x3C%N).
    rewrite (sub_matchless tag_re) by by apply (matchless_lit 0x3C%N).
    by rewrite sub_matchless by by apply matchless_blank_lines.
Qed.

(** ** Sanitization, in general *)


(** X2. A text without [<] and without three newlines in a row has
    nothing to remove: it is only trimmed. *)
Theorem plain_text_only_trimmed text :
  Forall (fun c => c <> 0x3C%N) text ->
  contains [0x0A; 0x0A; 0x0A]%N text = false ->
  strip_special_tags text = strip text.
Proof.
  intros Hlt Hnl. destruct text as [|c text]; [done|].
  rewrite strip_special_tags_scrub by done.
  destruct (scrub_plain (c :: text) Hlt Hnl) as [Hs Hsc]. by rewrite Hs.
Qed.

Lemma plain_text_only_trimmed_witness :
  strip_special_tags (lit "  Hello, world. ") = lit "Hello, world.".
Proof.
  change (lit "Hello, world.") with (strip (lit "  Hello, world. ")).
  apply plain_text_only_trimmed.
  - repeat (constructor; [discriminate|]). constructor.
  - reflexivity.
Defined.

(** X3. When the text has a final-channel marker, only the body
    between the first such marker and the next end marker is kept:
    what comes before the marker (an analysis channel, say) and what
    comes after the end marker have no influence on the result. *)
Theorem final_channel_extracted pre body post :
  contains FINAL_MARK (pre ++ removelast FINAL_MARK) = false ->
  contains END_MARK (body ++ removelast END_MARK) = false ->
  strip_special_tags (pre ++ FINAL_MARK ++ body ++ END_MARK ++ post) = scrub body
  /\ forall pre' post',
       contains FINAL_MARK (pre' ++ removelast FINAL_MARK) = false ->
       strip_special_tags (pre' ++ FINAL_MARK ++ body ++ END_MARK ++ post')
       = strip_special_tags (pre ++ FINAL_MARK ++ body ++ END_MARK ++ post).
Proof.
  intros Hpre Hbody.
  assert (H : forall p q, contains FINAL_MARK (p ++ removelast FINAL_MARK) = false ->
    strip_special_tags (p ++ FINAL_MARK ++ body ++ END_MARK ++ q) = scrub body).
  { intros p q Hp. rewrite strip_special_tags_scrub.
    - by rewrite search_final.
    - intros E. apply (f_equal length) in E. rewrite !length_app in E.
      change (length FINAL_MARK) with 27%nat in E. simpl in E. lia. }
  split; [by apply H|]. intros pre' post' Hpre'. by rewrite !H.
Qed.

Lemma final_channel_extracted_witness :
  strip_special_tags
    (lit "<|channel|>analysis<|message|>secret<|end|>" ++ FINAL_MARK
     ++ lit " Hi<think>x</think> there " ++ END_MARK ++ lit "tail")
  = lit "Hi there".
Proof.
  change (lit "Hi there") with (scrub (lit " Hi<think>x</think> there ")).
  apply final_channel_extracted; reflexivity.
Defined.

(** ** Names and roles in the context *)








(** The turns of the context are [assistant] for the messages of
    the agent and [user] for all others, never [system]; an assistant
    turn is the cleaned content with no name in front. *)
Theorem context_roles tbl self messages users cur :
  Forall2
    (fun m t =>
       if bool_decide (default [] (senderId m) = agent_user_id self)
       then t = {| role := assistant;
                   turn_content := clean_content tbl (default [] (content m)) |}
       else role t = user)
    (recent messages) (build_context tbl self messages users cur)
  /\ Forall (fun t => role t <> system) (build_context tbl self messages users cur).
Proof.
  unfold build_context. split.
  - induction (recent messages) as [|m l IH]; simpl; constructor; [|done].
    unfold context_turn. by case_bool_decide.
  - apply Forall_forall. intros t Ht. apply list_elem_of_In, in_map_iff in Ht
      as (m & <- & _).
    unfold context_turn. by case_bool_decide.
Qed.

(** ** Configuration *)

(** X7. Without a cached configuration, [generate_reply] asks for the
    model ["default"] with 1024 tokens and temperature 0.6 under the
    default system prompt; a cached configuration whose system prompt
    is absent or empty also gets the default prompt. The call is made
    once the prompt has been printed, and is the only change of the
    state; when the prompt cannot be printed, the exception of the
    print leaves the method and no call is made. *)
Theorem generate_reply_defaults w context self :
  let turns := {| role := system; turn_content := default_system_prompt |} :: context in
  (agent_config self = None ->
   exists text,
     generate_reply w context self =
     if (printable w (lit "default")
         && forallb (fun t => printable w (turn_content t)) turns)%bool
     then (reply_outcome w (chat_reply w (length (effects self))),
           set_effects
             (effects self ++ [ChatCompletion turns (lit "default") 1024 (6 # 10)%Q])
             self)
     else (Raises (UnicodeEncodeError text), self))
  /\ (forall c,
        agent_config self = Some c ->
        systemPrompt c = None \/ systemPrompt c = Some [] ->
        exists model max_tokens temp text,
          generate_reply w context self =
          if (printable w model
              && forallb (fun t => printable w (turn_content t)) turns)%bool
          then (reply_outcome w (chat_reply w (length (effects self))),
                set_effects
                  (effects self ++ [ChatCompletion turns model max_tokens temp]) self)
          else (Raises (UnicodeEncodeError text), self)).
Proof.
  cbv zeta. destruct (generate_reply_unfold w context self) as [text E].
  cbv zeta in E. split.
  - intros H. rewrite H in E. exists text. exact E.
  - intros c H Hp. rewrite H in E. cbn [mbind option_bind] in E.
    do 3 eexists. exists text.
    rewrite E. by destruct Hp as [-> | ->].
Qed.

Lemma generate_reply_defaults_witness :
  generate_reply unordered [] service
  = (Returns (failure_prefix ++ lit "boom"),
     set_effects
       [ChatCompletion [ {| role := system; turn_content := default_system_prompt |} ]
          (lit "default") 1024 (6 # 10)%Q] service).
Proof.
  destruct (proj1 (generate_reply_defaults unordered [] service) eq_refl) as [text ->].
  reflexivity.
Defined.

(** X8. When the registry cannot be read, or does not list the agent,
    [fetch_agent_config] returns nothing and keeps the cached
    configuration and the client as they are. *)
Theorem fetch_agent_config_keeps_cache w self :
  agents_reply w (length (effects self)) = None
  \/ (exists agents,
        agents_reply w (length (effects self)) = Some agents
        /\ Forall (fun a => cfg_id a <> Some (agent_id self)) agents) ->
  fetch_agent_config w self
  = (Returns None, set_effects (effects self ++ [GetAgents]) self).
Proof.
  intros H. unfold fetch_agent_config, try_except. rewrite call_bind.
  destruct H as [-> | (agents & -> & Hall)]; [done|].
  cbv beta iota. rewrite gets_bind. cbn [agent_id set_effects].
  assert (E : List.find (fun agent => bool_decide (cfg_id agent = Some (agent_id self)))
                agents = None).
  { induction Hall as [|a l Ha _ IH]; simpl; [done|].
    by rewrite bool_decide_eq_false_2. }
  rewrite E. rewrite print_bind. by destruct (printable w _).
Qed.

Lemma fetch_agent_config_keeps_cache_witness :
  fetch_agent_config unordered service
  = (Returns None, set_effects [GetAgents] service).
Proof.
  apply (fetch_agent_config_keeps_cache unordered service). by left.
Defined.

(** X9. When the registry lists the agent, the first entry with its
    identifier replaces the cached configuration. The configuration of
    the client is pointed to the entry's endpoint, with the key alias
    or ["not-needed"], exactly when the provider is ["parallax"] and
    the endpoint is not empty, and the client is then constructed. The
    entry is returned unless the construction, or the print of the
    endpoint after it, raises: the method then returns nothing, with
    the cached configuration and that of the client replaced all the
    same; when the text of the exception of the construction cannot be
    printed either, the exception of that print leaves the method. *)
Theorem fetch_agent_config_replaces w self before agent after :
  agents_reply w (length (effects self)) = Some (before ++ agent :: after) ->
  Forall (fun a => cfg_id a <> Some (agent_id self)) before ->
  cfg_id agent = Some (agent_id self) ->
  let parallax :=
    bool_decide (provider (default no_model (model agent)) = Some (lit "parallax")) in
  let url := default [] (endpoint (default no_runtime (runtime agent))) in
  let key := or_else (apiKeyAlias (default no_runtime (runtime agent))) (lit "not-needed") in
  fetch_agent_config w self
  = (if (parallax && truthy url)%bool then
       match client_reply w url key with
       | None => if printable w url then Returns (Some agent) else Returns None
       | Some text =>
           if printable w text then Returns None
           else Raises (UnicodeEncodeError (encode_error w text))
       end
     else Returns (Some agent),
     set_llm_client
       (if (parallax && truthy url)%bool
        then {| base_url := url; api_key := key |}
        else llm_client self)
       (set_agent_config (Some agent)
          (set_effects (effects self ++ [GetAgents]) self))).
Proof.
  intros Hr Hbefore Hid. cbv zeta.
  assert (E : List.find (fun a => bool_decide (cfg_id a = Some (agent_id self)))
                (before ++ agent :: after) = Some agent).
  { clear Hr. induction Hbefore as [|a l Ha _ IH]; simpl.
    - by rewrite bool_decide_eq_true_2.
    - rewrite bool_decide_eq_false_2 by done. exact IH. }
  unfold fetch_agent_config, try_except.
  remember (lit "parallax") as P eqn:HP. remember (lit "not-needed") as NN eqn:HNN.
  rewrite call_bind, Hr. cbv beta iota. rewrite gets_bind.
  cbn [agent_id set_effects]. rewrite E. cbv beta iota. rewrite modify_bind.
  destruct (bool_decide (provider _ = _)); cbn [andb]; cbv beta iota zeta.
  2:{ by destruct self. }
  destruct (truthy (default [] (endpoint (default no_runtime (runtime agent))))) eqn:Et;
    cbv beta iota.
  2:{ by destruct self. }
  assert (Eu : or_else (endpoint (default no_runtime (runtime agent)))
                 (base_url (llm_client self))
               = default [] (endpoint (default no_runtime (runtime agent)))).
  { destruct (endpoint _) as [[|c url]|]; done. }
  assert (Ek : or_else (Some (or_else (apiKeyAlias (default no_runtime (runtime agent))) NN))
                 (api_key (llm_client self))
               = or_else (apiKeyAlias (default no_runtime (runtime agent))) NN).
  { subst NN. by destruct (apiKeyAlias _) as [[|??]|]. }
  unfold configure_llm. do 2 step.
  cbn [llm_client set_llm_client set_agent_config set_effects base_url api_key].
  rewrite Eu, Ek.
  destruct (client_reply w _ _) as [text|]; step.
  - step. by destruct (printable w text).
  - step. by destruct (printable w _).
Qed.

Lemma fetch_agent_config_replaces_witness :
  fetch_agent_config Registry.listed service
  = (Returns (Some Registry.mine),
     set_llm_client
       {| base_url := lit "http://host:3005/v1"; api_key := lit "not-needed" |}
       (set_agent_config (Some Registry.mine) (set_effects [GetAgents] service)))
  /\ fetch_agent_config Registry.refusing service
     = (Returns None,
        set_llm_client
          {| base_url := lit "http://host:bad/v1"; api_key := lit "not-needed" |}
          (set_agent_config (Some Registry.broken) (set_effects [GetAgents] service))).
Proof.
  split.
  - rewrite (fetch_agent_config_replaces Registry.listed service [Registry.elsewhere]
               Registry.mine [] eq_refl).
    + reflexivity.
    + repeat constructor. discriminate.
    + reflexivity.
  - rewrite (fetch_agent_config_replaces Registry.refusing service [Registry.elsewhere]
               Registry.broken [] eq_refl).
    + reflexivity.
    + repeat constructor. discriminate.
    + reflexivity.
Defined.

(** ** The loop, step by step *)

Section Steps.
Variable tbl : char -> bool.
Variable w : World.

(** A property kept by every [process_message] of a loop is kept by
    the loop, whether an exception ends it or not. *)
Lemma for_each_inv (P : AgentService -> Prop) msgs users l self :
  (forall s m, m ∈ l -> P s -> P (exec (process_message tbl w m msgs users) s)) ->
  P self ->
  P (exec (for_each l (fun msg => process_message tbl w msg msgs users)) self).
Proof.
  revert self. induction l as [|m l IH]; intros self Hstep H0; [done|].
  cbn [for_each]. unfold exec. rewrite bind_run.
  assert (H1 : P (process_message tbl w m msgs users self).2).
  { apply Hstep; [by left|done]. }
  destruct (process_message tbl w m msgs users self) as [[[]|e] s1]; cbn [fst snd] in *.
  - apply IH; [|done]. intros s x Hx. apply Hstep. by right.
  - done.
Qed.

(** A property of the state that does not look at the watermark and is
    kept by [process_message] is kept by a turn of the loop that has
    made its fetch. *)
Lemma poll_cycle_inv (P : AgentService -> Prop) self :
  (forall v s, P s -> P (set_last_seen_timestamp v s)) ->
  (forall s m msgs users,
     m ∈ new_messages self msgs -> fetched w self = (msgs, users) ->
     P s -> P (exec (process_message tbl w m msgs users) s)) ->
  P (set_effects (effects self ++ [GetMessages]) self) ->
  P (exec (poll_cycle tbl w) self).
Proof.
  intros Hwm Hstep H1. rewrite poll_cycle_unfold. cbv zeta.
  destruct (fetched w self) as [[|m ms] users] eqn:Ef; [done|].
  pose proof (for_each_inv P (m :: ms) users (new_messages self (m :: ms))
                (set_effects (effects self ++ [GetMessages]) self)) as H.
  unfold exec in H.
  destruct (for_each _ _ _) as [[[]|e] s2]; cbn [snd] in H.
  - apply Hwm, H; [|done]. intros s x Hx. by apply Hstep.
  - apply H; [|done]. intros s x Hx. by apply Hstep.
Qed.

End Steps.

(** ** The loop as a whole *)

(** X10. A cycle that finds nothing to dispatch (the fetch fails or is
    empty, or every fetched message is at or below the watermark or
    already processed) makes the fetch and no other call, and changes
    nothing but the watermark. *)
Theorem quiet_cycle tbl w self :
  new_messages self (fetched w self).1 = [] ->
  exec (poll_cycle tbl w) self
  = set_last_seen_timestamp
      (foldr Z.max (last_seen_timestamp self) (ts <$> (fetched w self).1))
      (set_effects (effects self ++ [GetMessages]) self)
  /\ ((fetched w self).1 = [] ->
      exec (poll_cycle tbl w) self
      = set_effects (effects self ++ [GetMessages]) self).
Proof.
  intros H. rewrite poll_cycle_unfold. cbv zeta.
  destruct (fetched w self) as [[|m ms] users]; cbn [fst] in *.
  - split; [|done]. by destruct self.
  - rewrite H. split; [done|discriminate].
Qed.

Lemma quiet_cycle_witness :
  let seen := set_last_seen_timestamp 200 service in
  exec (poll_cycle ascii_only unordered) seen
  = set_effects [GetMessages] seen.
Proof.
  cbv zeta.
  rewrite (proj1 (quiet_cycle ascii_only unordered
                    (set_last_seen_timestamp 200 service) eq_refl)).
  reflexivity.
Defined.

(** Methods that agree step by step agree as a whole. *)
Lemma bind_ext {A B} (c c' : M A) (k k' : A -> M B) self :
  c self = c' self -> (forall a s, k a s = k' a s) ->
  (c ≫= k) self = (c' ≫= k') self.
Proof.
  intros Hc Hk. rewrite !bind_run, Hc.
  destruct (c' self) as [[a|e] s]; [apply Hk|done].
Qed.

Lemma try_except_ext {A} (c c' : M A) (h h' : Exn -> M A) self :
  c self = c' self -> (forall e s, h e s = h' e s) ->
  try_except c h self = try_except c' h' self.
Proof.
  intros Hc Hh. unfold try_except. rewrite Hc.
  destruct (c' self) as [[a|e] s]; [done|apply Hh].
Qed.

Lemma for_each_ext {T} (l : list T) (f f' : T -> M unit) self :
  (forall x s, f x s = f' x s) -> for_each l f self = for_each l f' self.
Proof.
  intros Hf. revert self. induction l as [|x l IH]; intros self; [done|].
  cbn [for_each]. apply bind_ext; [apply Hf|]. intros _ s. apply IH.
Qed.

Section PostsIgnored.
Variable tbl : char -> bool.
Variables w w' : World.
Hypothesis Hsame : same_but_posts w w'.

Lemma printable_same text : printable w text = printable w' text.
Proof.
  destruct Hsame as (_ & _ & _ & _ & Hs & _). unfold printable.
  induction text as [|c text IH]; [done|]. cbn [forallb]. by rewrite Hs, IH.
Qed.

Lemma print_same text self : print w text self = print w' text self.
Proof.
  destruct Hsame as (_ & _ & _ & _ & _ & He).
  unfold print. by rewrite printable_same, He.
Qed.

Lemma print_exn_same e self : print_exn w e self = print_exn w' e self.
Proof. destruct e; [done|]. apply print_same. Qed.

Lemma fetch_agent_config_same self :
  fetch_agent_config w self = fetch_agent_config w' self.
Proof.
  destruct Hsame as (Ha & _ & _ & Hc & _).
  unfold fetch_agent_config. apply try_except_ext.
  2:{ intros e s. apply bind_ext; [apply print_exn_same|done]. }
  rewrite !call_bind, Ha. destruct (agents_reply w' _) as [agents|]; [|done].
  cbv beta iota. rewrite !gets_bind.
  destruct (List.find _ agents) as [agent|]; cbv beta iota.
  2:{ apply bind_ext; [apply print_same|done]. }
  rewrite !modify_bind. apply bind_ext; [|done].
  destruct (bool_decide _); [|done]. cbv zeta. destruct (truthy _); [|done].
  apply bind_ext; [|intros _ s; apply print_same].
  unfold configure_llm. rewrite !modify_bind, !gets_bind. by rewrite Hc.
Qed.

Lemma generate_reply_same context self :
  generate_reply w context self = generate_reply w' context self.
Proof.
  destruct Hsame as (_ & _ & Hc & _).
  unfold generate_reply. rewrite !gets_bind.
  apply bind_ext; [apply print_same|]. intros _ s.
  apply bind_ext; [apply for_each_ext; intros x s0; apply print_same|].
  intros _ s0. apply try_except_ext.
  2:{ intros e s1. apply bind_ext; [apply print_exn_same|done]. }
  rewrite !call_bind, Hc. destruct (chat_reply w' _) as [response|e]; [|done].
  apply bind_ext; [apply print_same|]. intros _ s1.
  cbv zeta. apply bind_ext; [apply print_same|done].
Qed.

(** The two posts leave the same state; what they return is not
    looked at. *)
Lemma send_message_same content reply_to_id self :
  (send_message w content reply_to_id self).2
  = (send_message w' content reply_to_id self).2.
Proof. by rewrite !send_message_spec. Qed.

Lemma process_message_same m msgs users self :
  process_message tbl w m msgs users self = process_message tbl w' m msgs users self.
Proof.
  unfold process_message. rewrite !gets_bind.
  destruct (bool_decide (senderId m = _)); [done|].
  destruct (bool_decide (msg_id m ∈ _)); [done|].
  destruct (negb _); [done|].
  apply bind_ext; [apply print_same|]. intros _ s.
  apply bind_ext; [apply fetch_agent_config_same|]. intros _ s1.
  rewrite !gets_bind.
  apply bind_ext; [apply generate_reply_same|]. intros reply s2.
  rewrite !bind_run, !send_message_spec. reflexivity.
Qed.

Lemma run_same n self : exec (run tbl w n) self = exec (run tbl w' n) self.
Proof.
  induction n as [|n IH]; [done|]. rewrite !run_snoc, IH.
  set (s := exec (run tbl w' n) self). rewrite !poll_cycle_unfold. cbv zeta.
  rewrite !fetched_spec. destruct Hsame as (_ & Hm & _). rewrite Hm.
  destruct (default _ _) as [[|m ms] users]; [done|].
  rewrite (for_each_ext _ _
             (fun msg => process_message tbl w' msg (m :: ms) users)); [done|].
  intros x s0. apply process_message_same.
Qed.

End PostsIgnored.

(** X11. The outcome of a post is ignored: two backends that differ
    only in whether posts succeed drive the loop through the same
    states, with the same calls. A reply whose post fails is not sent
    again, and its message is marked processed all the same. *)
Theorem post_outcome_ignored tbl w w' n self :
  same_but_posts w w' ->
  exec (run tbl w n) self = exec (run tbl w' n) self.
Proof. intros H. by apply run_same. Qed.

Lemma post_outcome_ignored_witness :
  let failing_posts :=
    {| agents_reply := agents_reply unordered;
       messages_reply := messages_reply unordered;
       chat_reply := chat_reply unordered;
       post_reply := fun _ => false;
       client_reply := client_reply unordered;
       stdout_has := stdout_has unordered;
       encode_error := encode_error unordered |} in
  exec (run ascii_only unordered 2) service
  = exec (run ascii_only failing_posts 2) service.
Proof.
  cbv zeta. apply post_outcome_ignored. by repeat split.
Defined.

Lemma count_calls_app p es1 es2 :
  count_calls p (es1 ++ es2) = (count_calls p es1 + count_calls p es2)%nat.
Proof. unfold count_calls. by rewrite List.filter_app, length_app. Qed.

Lemma reply_blocks_app es1 es2 :
  reply_blocks es1 = true -> reply_blocks es2 = true ->
  reply_blocks (es1 ++ es2) = true.
Proof.
  intros H1 H2. remember (length es1) as n eqn:Hn.
  revert es1 Hn H1. induction n as [n IH] using lt_wf_ind. intros es1 Hn H1.
  assert (Hrec : forall l, (length l < n)%nat -> reply_blocks l = true ->
                           reply_blocks (l ++ es2) = true).
  { intros l Hl Hb. by apply (IH (length l)). }
  clear IH. subst n.
  destruct es1 as [|e es1]; [done|]. destruct e; try done.
  - destruct es1 as [|e1 es1].
    { cbn [app reply_blocks]. by destruct es2 as [|[] es2]. }
    destruct e1.
    + apply (Hrec (GetAgents :: es1)); [simpl; lia|done].
    + apply (Hrec (GetMessages :: es1)); [simpl; lia|done].
    + destruct es1 as [|e2 es1].
      { cbn [app reply_blocks]. by destruct es2 as [|[] es2]. }
      destruct e2.
      * apply (Hrec (GetAgents :: es1)); [simpl; lia|done].
      * apply (Hrec (GetMessages :: es1)); [simpl; lia|done].
      * done.
      * apply (Hrec es1); [simpl; lia|done].
    + done.
  - apply (Hrec es1); [simpl; lia|done].
Qed.

Lemma is_mentioned_agent self self' m users :
  agent_user_id self' = agent_user_id self ->
  is_mentioned self' m users = is_mentioned self m users.
Proof. intros H. unfold is_mentioned. by rewrite H. Qed.

Section Accounting.
Variable tbl : char -> bool.
Variable w : World.

Lemma tallied_calls s es posts completions refreshes :
  tallied s ->
  count_calls is_post es = posts ->
  count_calls is_completion es = completions ->
  count_calls is_refresh es = refreshes ->
  (posts <= completions <= refreshes)%nat ->
  reply_blocks es = true ->
  forall ids,
    size ids = (size (processed_message_ids s) + posts)%nat ->
    tallied
      {| agent_id := agent_id s; agent_user_id := agent_user_id s;
         last_seen_timestamp := last_seen_timestamp s;
         processed_message_ids := ids;
         agent_config := agent_config s; llm_client := llm_client s;
         effects := effects s ++ es |}.
Proof.
  intros (Hp & Hc & Hr & Hb) <- <- <- Hle Hes ids Hids. unfold tallied.
  cbn [effects processed_message_ids]. rewrite !count_calls_app.
  split; [lia|]. split; [lia|]. split; [lia|]. by apply reply_blocks_app.
Qed.

Lemma tallied_config s cfg llm :
  tallied s ->
  tallied {| agent_id := agent_id s; agent_user_id := agent_user_id s;
             last_seen_timestamp := last_seen_timestamp s;
             processed_message_ids := processed_message_ids s;
             agent_config := cfg; llm_client := llm; effects := effects s |}.
Proof. done. Qed.

Lemma tallied_process m msgs users s :
  tallied s -> tallied (exec (process_message tbl w m msgs users) s).
Proof.
  intros H. unfold exec.
  destruct (process_message_cases tbl w s m msgs users)
    as [[_ E]|(_ & Hnew & _ & [(text & cfg & llm & es & E & Hes)
                         |(cfg & llm & prompt & model & mt & temp & reply & E & _)])];
    rewrite E; cbn [snd]; [done| |].
  - apply (tallied_calls
             {| agent_id := agent_id s; agent_user_id := agent_user_id s;
                last_seen_timestamp := last_seen_timestamp s;
                processed_message_ids := processed_message_ids s;
                agent_config := cfg; llm_client := llm; effects := effects s |}
             es 0 (count_calls is_completion es) (count_calls is_refresh es));
      [by apply tallied_config|..]; cbn [processed_message_ids];
      destruct Hes as [->|[->|(? & ? & ? & ? & -> & _)]];
      try reflexivity; try (cbn; lia).
  - apply (tallied_calls
             {| agent_id := agent_id s; agent_user_id := agent_user_id s;
                last_seen_timestamp := last_seen_timestamp s;
                processed_message_ids := processed_message_ids s;
                agent_config := cfg; llm_client := llm; effects := effects s |}
             _ 1 1 1);
      [by apply tallied_config|try reflexivity..|]; [cbn; lia|].
    cbn [processed_message_ids].
    rewrite size_union by set_solver. rewrite size_singleton. lia.
Qed.

Lemma tallied_cycle s : tallied s -> tallied (exec (poll_cycle tbl w) s).
Proof.
  intros H. apply poll_cycle_inv.
  - intros v s0 H0. by destruct s0.
  - intros s0 m msgs users _ _. apply tallied_process.
  - apply (tallied_calls s [GetMessages] 0 0 0 H); try reflexivity; lia.
Qed.

Lemma tallied_run n s : tallied s -> tallied (exec (run tbl w n) s).
Proof.
  intros H. induction n as [|n IH]; [done|]. rewrite run_snoc. by apply tallied_cycle.
Qed.

Lemma fetches_process m msgs users s :
  count_calls is_fetch (effects (exec (process_message tbl w m msgs users) s))
  = count_calls is_fetch (effects s).
Proof.
  unfold exec.
  destruct (process_message_cases tbl w s m msgs users)
    as [[_ E]|(_ & _ & _ & [(text & cfg & llm & es & E & Hes)
                         |(cfg & llm & prompt & model & mt & temp & reply & E & _)])];
    rewrite E; cbn [snd effects]; [done| |].
  - rewrite count_calls_app.
    destruct Hes as [->|[->|(? & ? & ? & ? & -> & _)]]; cbn; lia.
  - rewrite count_calls_app. cbn. lia.
Qed.

Lemma fetches_cycle s :
  count_calls is_fetch (effects (exec (poll_cycle tbl w) s))
  = S (count_calls is_fetch (effects s)).
Proof.
  apply (poll_cycle_inv tbl w
           (fun x => count_calls is_fetch (effects x)
                     = S (count_calls is_fetch (effects s)))).
  - done.
  - intros s0 m msgs users _ _ <-. apply fetches_process.
  - cbn [set_effects effects]. rewrite count_calls_app. cbn. lia.
Qed.

Lemma fetches_run n s :
  count_calls is_fetch (effects (exec (run tbl w n) s))
  = (n + count_calls is_fetch (effects s))%nat.
Proof.
  induction n as [|n IH]; [done|]. by rewrite run_snoc, fetches_cycle, IH.
Qed.

End Accounting.

(** X12. From the start on, the log is made of the fetches, one for
    each cycle, and of replies: a refresh of the configuration, then a
    completion, then a post, a reply that an exception ends stopping
    after the refresh or after the completion. The number of posts is
    the number of processed identifiers; it is at most the number of
    completions, which is at most the number of refreshes. *)
Theorem reply_accounting tbl w now agent user_ n :
  let s := exec (run tbl w n) (init now agent user_) in
  reply_blocks (effects s) = true
  /\ count_calls is_post (effects s) = size (processed_message_ids s)
  /\ (count_calls is_post (effects s) <= count_calls is_completion (effects s))%nat
  /\ (count_calls is_completion (effects s) <= count_calls is_refresh (effects s))%nat
  /\ count_calls is_fetch (effects s) = n.
Proof.
  cbv zeta.
  destruct (tallied_run tbl w n (init now agent user_)) as (Hp & Hc & Hr & Hb).
  { by repeat split. }
  repeat split; try done. rewrite fetches_run.
  change (count_calls is_fetch (effects (init now agent user_))) with 0%nat. lia.
Qed.

Section Provenance.
Variable tbl : char -> bool.
Variable w : World.
Variable now : Z.
Variable me : AgentService.

Lemma provenance_cycle s :
  agent_user_id s = agent_user_id me ->
  now <= last_seen_timestamp s ->
  (forall i, i ∈ processed_message_ids s -> mention_fetched w now me i) ->
  forall i, i ∈ processed_message_ids (exec (poll_cycle tbl w) s) ->
            mention_fetched w now me i.
Proof.
  intros Hu Hnow Hall.
  apply (poll_cycle_inv tbl w
    (fun x => agent_user_id x = agent_user_id me
              /\ forall i, i ∈ processed_message_ids x -> mention_fetched w now me i)).
  - done.
  - intros s0 x msgs users Hx Hf [Hu0 Hall0]. unfold exec.
    destruct (process_message_cases tbl w s0 x msgs users)
      as [[_ E]|(Hs & _ & Hm & [(text & cfg & llm & es & E & Hes)
                           |(cfg & llm & prompt & model & mt & temp & reply & E & _)])];
      rewrite E; cbn [snd agent_user_id processed_message_ids]; [done|done|].
    split; [done|].
    intros i Hi. apply elem_of_union in Hi as [Hi|Hi]; [|by apply Hall0].
    apply elem_of_singleton in Hi. subst i.
    apply new_messages_elem in Hx as (Hin & Hts & _).
    rewrite fetched_spec in Hf.
    destruct (messages_reply w (length (effects s))) as [p|] eqn:Hk.
    2:{ simpl in Hf. injection Hf as <- <-. by apply elem_of_nil in Hin. }
    simpl in Hf. subst p.
    exists (length (effects s)), msgs, users, x.
    repeat split; try done.
    + lia.
    + by rewrite <- Hu0.
    + by rewrite (is_mentioned_agent s0 me).
  - done.
Qed.

End Provenance.

(** X13. Only answered mentions are marked processed: from the start
    on, every identifier of the processed set is that of a message that
    was fetched, is newer than the start time, was not sent by the
    agent and mentions it. *)
Theorem processed_are_answered_mentions tbl w now agent user_ n i :
  i ∈ processed_message_ids (exec (run tbl w n) (init now agent user_)) ->
  mention_fetched w now (init now agent user_) i.
Proof.
  revert i. induction n as [|n IH]; intros i.
  - intros H. by apply not_elem_of_empty in H.
  - rewrite run_snoc.
    destruct (run_frame tbl w n (init now agent user_)) as (_ & Hu & Hl & _).
    apply provenance_cycle; done.
Qed.

Lemma processed_are_answered_mentions_witness :
  Some (lit "a") ∈ processed_message_ids (exec (run ascii_only unordered 1) service)
  /\ mention_fetched unordered 50 service (Some (lit "a")).
Proof.
  assert (H : Some (lit "a")
              ∈ processed_message_ids (exec (run ascii_only unordered 1) service)).
  { refine (bool_decide_unpack _ _). by vm_compute. }
  split; [exact H|].
  exact (processed_are_answered_mentions ascii_only unordered 50 AGENT_ID
           AGENT_USER_ID 1 (Some (lit "a")) H).
Defined.

(** ** Blank lines *)
















(** ** Chunking *)

Module RagFacts.
Import Rag.

Lemma lstrip_nil s : lstrip s = [] -> Forall (fun c => is_space c = true) s.
Proof.
  intros H. destruct (lstrip_split s) as (sp & Hs & Hsp).
  rewrite H, app_nil_r in Hs. by subst.
Qed.

Lemma strip_nil s : strip s = [] <-> Forall (fun c => is_space c = true) s.
Proof.
  split; [|apply strip_all_space].
  unfold strip. intros H.
  apply (f_equal (@rev char)) in H. rewrite rev_involutive in H. simpl in H.
  apply lstrip_nil in H.
  destruct (lstrip_split s) as (sp & Hs & Hsp). rewrite Hs.
  apply Forall_app. split; [done|].
  apply Forall_forall. intros c Hc. rewrite Forall_forall in H. apply H.
  apply list_elem_of_In. apply -> in_rev. by apply list_elem_of_In.
Qed.

Lemma strip_clean s : strip s <> [] -> clean (strip s).
Proof.
  intros H. split; [done|]. split; [apply strip_stops_head|apply strip_stops_last].
Qed.

Lemma nonblank_not_blank s :
  nonblank s <-> ~ Forall (fun c => is_space c = true) s.
Proof.
  unfold nonblank. induction s as [|c s IH].
  - split; [by intros H; inversion H|]. intros H. by destruct H.
  - rewrite Exists_cons, Forall_cons, IH. destruct (is_space c); split.
    + intros [?|H]; [done|]. tauto.
    + intros H. right. tauto.
    + intros _ [? _]. done.
    + intros _. by left.
Qed.

Lemma nonblank_strip s : nonblank s <-> strip s <> [].
Proof. by rewrite nonblank_not_blank, strip_nil. Qed.

Lemma ends_firm_snoc s : ends_firm s <-> exists a c, s = a ++ [c] /\ is_space c = false.
Proof.
  unfold ends_firm. split.
  - destruct (rev s) as [|c r] eqn:E; [done|]. intros H. exists (rev r), c.
    split; [|done]. apply (f_equal (@rev char)) in E.
    by rewrite rev_involutive in E.
  - intros (a & c & -> & H). by rewrite rev_app_distr.
Qed.

Lemma ends_firm_app a b : ends_firm b -> ends_firm (a ++ b).
Proof.
  rewrite !ends_firm_snoc. intros (x & c & -> & H). exists (a ++ x), c.
  by rewrite app_assoc.
Qed.

Lemma ends_firm_tail k s : 0 < k -> ends_firm s -> ends_firm (tail k s).
Proof.
  rewrite !ends_firm_snoc. intros Hk (x & c & -> & H). unfold tail.
  exists (drop (length (x ++ [c]) - Z.to_nat k) x), c. split; [|done].
  rewrite drop_app_le; [done|]. rewrite length_app. simpl. lia.
Qed.

Lemma ends_firm_nonblank s : ends_firm s -> strip s <> [].
Proof.
  rewrite ends_firm_snoc. intros (x & c & -> & H). apply nonblank_strip.
  apply Exists_app. right. by left.
Qed.

Lemma clean_ends_firm s : clean s -> ends_firm s.
Proof.
  intros (Hne & _ & Hlast). unfold ends_firm.
  destruct (rev s) as [|c r] eqn:E; [|done].
  apply (f_equal (@rev char)) in E. rewrite rev_involutive in E. done.
Qed.

Section Kept.
Variables chunk_size overlap : Z.

Lemma joined_firm sep current piece : clean piece -> ends_firm (joined sep current piece).
Proof.
  intros H. unfold joined. rewrite app_assoc. by apply ends_firm_app, clean_ends_firm.
Qed.

Lemma flushed_clean current :
  truthy current = true -> current = [] \/ ends_firm current -> clean (strip current).
Proof.
  intros Ht [->|H]; [done|]. by apply strip_clean, ends_firm_nonblank.
Qed.

Lemma add_sentence_kept st sent :
  kept st -> kept (add_sentence chunk_size overlap st sent).
Proof.
  destruct st as [chunks current]. intros [Hc Hcur]. cbn [fst snd] in Hc, Hcur.
  unfold add_sentence.
  destruct (truthy (strip sent)) eqn:Es; [|done]. cbn [negb].
  assert (Hs : clean (strip sent)) by (by apply strip_clean, truthy_spec).
  destruct (_ && truthy current)%bool eqn:E.
  - apply andb_true_iff in E as [_ Ht]. split; cbn [fst snd].
    + apply Forall_app. split; [done|]. constructor; [|done]. by apply flushed_clean.
    + right. by apply joined_firm.
  - split; cbn [fst snd]; [done|]. right. by apply joined_firm.
Qed.

Lemma fold_sentences_kept l st :
  kept st -> kept (fold_left (add_sentence chunk_size overlap) l st).
Proof.
  revert st. induction l as [|s l IH]; intros st H; [done|].
  simpl. by apply IH, add_sentence_kept.
Qed.

Lemma add_paragraph_kept st para :
  kept st -> kept (add_paragraph chunk_size overlap st para).
Proof.
  destruct st as [chunks current]. intros [Hc Hcur]. cbn [fst snd] in Hc, Hcur.
  unfold add_paragraph.
  destruct (truthy (strip para)) eqn:Es; [|done]. cbn [negb].
  assert (Hs : clean (strip para)) by (by apply strip_clean, truthy_spec).
  destruct (_ >? chunk_size) eqn:E1.
  2:{ split; cbn [fst snd]; [done|]. right. by apply joined_firm. }
  assert (Hflush : kept
    (if truthy current
     then (chunks ++ [strip current],
           if (overlap >? 0) && (len current >? overlap)
           then tail overlap current else [])
     else (chunks, current))).
  { destruct (truthy current) eqn:Ht; [|done]. split; cbn [fst snd].
    - apply Forall_app. split; [done|]. constructor; [|done]. by apply flushed_clean.
    - destruct (_ && _)%bool eqn:E; [|by left]. right.
      apply andb_true_iff in E as [Ho _]. apply Z.gtb_lt in Ho.
      destruct Hcur as [->|Hcur]; [done|]. by apply ends_firm_tail. }
  destruct (if truthy current then _ else _) as [chunks' current'].
  destruct (len (strip para) >? chunk_size).
  - by apply fold_sentences_kept.
  - destruct Hflush as [H1 H2]. split; cbn [fst snd] in *; [done|].
    right. by apply joined_firm.
Qed.

Lemma fold_paragraphs_kept l st :
  kept st -> kept (fold_left (add_paragraph chunk_size overlap) l st).
Proof.
  revert st. induction l as [|s l IH]; intros st H; [done|].
  simpl. by apply IH, add_paragraph_kept.
Qed.

Lemma joined_nonempty sep current piece : piece <> [] -> joined sep current piece <> [].
Proof.
  intros H E. unfold joined in E. apply app_eq_nil in E as [_ E].
  by apply app_eq_nil in E as [_ E].
Qed.

Lemma add_sentence_started st sent :
  started st \/ nonblank sent -> started (add_sentence chunk_size overlap st sent).
Proof.
  destruct st as [chunks current]. unfold add_sentence.
  destruct (truthy (strip sent)) eqn:Es; cbn [negb].
  - intros _. apply truthy_spec in Es.
    destruct (_ && truthy current)%bool; right; by apply joined_nonempty.
  - intros [H|H]; [done|]. apply nonblank_strip in H. by destruct (strip sent).
Qed.

Lemma fold_sentences_started l st :
  started st \/ Exists nonblank l ->
  started (fold_left (add_sentence chunk_size overlap) l st).
Proof.
  revert st. induction l as [|s l IH]; intros st H.
  - destruct H as [H|H]; [done|by inversion H].
  - simpl. apply IH. destruct H as [H|H].
    + left. apply add_sentence_started. by left.
    + apply Exists_cons in H as [H|H]; [|by right].
      left. apply add_sentence_started. by right.
Qed.

End Kept.

Lemma split_from_cons sep skip s : exists p ps, split_from sep skip s = p :: ps.
Proof.
  revert skip. induction s as [|c s IH]; intros skip; simpl; [by eauto|].
  destruct skip as [|n]; [|apply IH].
  destruct (starts_with sep (c :: s)); [by eauto|].
  destruct (IH O) as (p & ps & ->). eauto.
Qed.

Lemma split_from_sub (P : char -> Prop) sep skip s :
  Forall P s -> Forall (Forall P) (split_from sep skip s).
Proof.
  intros H. revert skip. induction H as [|c s Hc Hs IH]; intros skip; simpl.
  - by repeat constructor.
  - destruct skip as [|n]; [|apply IH].
    destruct (starts_with sep (c :: s)); [by constructor|].
    specialize (IH O). destruct (split_from sep 0 s) as [|p ps].
    + by repeat constructor.
    + apply Forall_cons in IH as [Hp Hps]. constructor; [by constructor|done].
Qed.

Lemma nonblank_cons_space c s : is_space c = true -> nonblank (c :: s) -> nonblank s.
Proof. intros Hc H. apply Exists_cons in H as [H|H]; [congruence|done]. Qed.

Lemma split_from_nonblank sep skip s :
  sep <> [] -> Forall (fun c => is_space c = true) sep ->
  Forall (fun c => is_space c = true) (take skip s) ->
  nonblank s -> Exists nonblank (split_from sep skip s).
Proof.
  intros Hne Hsep. revert skip. induction s as [|c s IH]; intros skip Hskip Hs.
  - by inversion Hs.
  - simpl. destruct skip as [|n].
    + destruct (starts_with sep (c :: s)) eqn:E.
      * destruct sep as [|x sep']; [done|]. simpl in E.
        apply andb_true_iff in E as [Ex E]. apply eqc_eq in Ex. subst x.
        apply Forall_cons in Hsep as [Hc Hsep'].
        apply Exists_cons. right. apply IH.
        -- simpl. rewrite Nat.sub_0_r. apply starts_with_take in E. by rewrite E.
        -- by eapply nonblank_cons_space.
      * destruct (split_from_cons sep 0 s) as (p & ps & Ep).
        specialize (IH O). rewrite Ep in *.
        apply Exists_cons in Hs as [Hc|Hs].
        -- apply Exists_cons. left. by left.
        -- apply Exists_cons in IH as [Hp|Hps]; [| |done|done].
           ++ apply Exists_cons. left. by right.
           ++ apply Exists_cons. by right.
    + simpl in Hskip. apply Forall_cons in Hskip as [Hc Hskip].
      apply IH; [done|]. by eapply nonblank_cons_space.
Qed.

Lemma replace_nonblank old new s :
  nonblank new -> nonblank s -> nonblank (replace old new s).
Proof.
  intros Hnew. unfold replace. induction s as [|c s IH]; intros Hs; [by inversion Hs|].
  simpl. destruct (starts_with old (c :: s)).
  - apply Exists_app. by left.
  - apply Exists_cons in Hs as [Hc|Hs]; [by left|]. right. by apply IH.
Qed.

Lemma sentences_nonblank para : nonblank para -> Exists nonblank (sentences para).
Proof.
  intros H. unfold sentences, split. apply split_from_nonblank.
  - done.
  - by repeat constructor.
  - done.
  - apply replace_nonblank; [by left|]. apply replace_nonblank; [by left|done].
Qed.

Section Started.
Variables chunk_size overlap : Z.

Lemma add_paragraph_started st para :
  started st \/ nonblank para -> started (add_paragraph chunk_size overlap st para).
Proof.
  destruct st as [chunks current]. unfold add_paragraph.
  destruct (truthy (strip para)) eqn:Es; cbn [negb].
  2:{ intros [H|H]; [done|]. apply nonblank_strip in H. by destruct (strip para). }
  intros _. apply truthy_spec in Es.
  destruct (_ >? chunk_size); [|right; by apply joined_nonempty].
  destruct (if truthy current then _ else _) as [chunks' current'].
  destruct (len (strip para) >? chunk_size); [|right; by apply joined_nonempty].
  apply fold_sentences_started. right. apply sentences_nonblank.
  apply strip_clean, clean_ends_firm, ends_firm_snoc in Es as (a & c & -> & Hc).
  apply Exists_app. right. by left.
Qed.

Lemma fold_paragraphs_started l st :
  started st \/ Exists nonblank l ->
  started (fold_left (add_paragraph chunk_size overlap) l st).
Proof.
  revert st. induction l as [|s l IH]; intros st H.
  - destruct H as [H|H]; [done|by inversion H].
  - simpl. apply IH. destruct H as [H|H].
    + left. apply add_paragraph_started. by left.
    + apply Exists_cons in H as [H|H]; [|by right].
      left. apply add_paragraph_started. by right.
Qed.

Lemma fold_paragraphs_blank l st :
  Forall (Forall (fun c => is_space c = true)) l ->
  fold_left (add_paragraph chunk_size overlap) l st = st.
Proof.
  intros H. revert st. induction H as [|p l Hp _ IH]; intros st; [done|].
  simpl. rewrite <- (IH st) at 2. f_equal.
  destruct st as [chunks current]. unfold add_paragraph.
  apply strip_nil in Hp. by rewrite Hp.
Qed.

Lemma chunk_text_long text :
  chunk_size < len text ->
  chunk_text chunk_size overlap text =
  let st := fold_left (add_paragraph chunk_size overlap)
              (split [0x0A%N; 0x0A%N] text) ([], []) in
  if truthy (strip st.2) then st.1 ++ [strip st.2] else st.1.
Proof.
  intros H. unfold chunk_text. destruct text as [|c text]; [done|].
  assert (E2 : (len (c :: text) <=? chunk_size) = false) by (apply Z.leb_gt; lia).
  rewrite E2. cbn [truthy negb orb]. cbv zeta. by destruct (fold_left _ _ _).
Qed.

End Started.

(** X14. For a text longer than the chunk size, every chunk is not
    empty and has no white space at its start or at its end. *)
Theorem chunks_clean chunk_size overlap text :
  chunk_size < len text ->
  Forall clean (chunk_text chunk_size overlap text).
Proof.
  intros H. rewrite chunk_text_long by done. cbv zeta.
  pose proof (fold_paragraphs_kept chunk_size overlap
                (split [0x0A%N; 0x0A%N] text) ([], [])) as [Hc Hcur].
  { split; [constructor|by left]. }
  destruct (truthy (strip _)) eqn:E; [|done].
  apply Forall_app. split; [done|]. constructor; [|done].
  by apply strip_clean, truthy_spec.
Qed.

Lemma chunks_clean_witness :
  20 < len sample /\ Forall clean (chunk_text 20 5 sample).
Proof.
  assert (H : 20 < len sample) by (by vm_compute).
  split; [exact H|]. exact (chunks_clean 20 5 sample H).
Defined.

(** X15. A text that is not longer than the chunk size is its own only
    chunk, as it is; a longer text gives no chunk exactly when it is
    all white space; so a text with a character that is not white
    space always gives a chunk. *)
Theorem chunks_exist chunk_size overlap text :
  (text <> [] -> len text <= chunk_size ->
   chunk_text chunk_size overlap text = [text])
  /\ (chunk_size < len text ->
      (chunk_text chunk_size overlap text = []
       <-> Forall (fun c => is_space c = true) text))
  /\ (nonblank text -> chunk_text chunk_size overlap text <> []).
Proof.
  assert (Hlong : chunk_size < len text ->
    (chunk_text chunk_size overlap text = []
     <-> Forall (fun c => is_space c = true) text)).
  { intros H. rewrite chunk_text_long by done. cbv zeta. split.
    - intros E. destruct (decide (Forall (fun c => is_space c = true) text))
        as [Hb|Hb]; [done|]. exfalso.
      apply nonblank_not_blank in Hb.
      pose proof (fold_paragraphs_kept chunk_size overlap
                    (split [0x0A%N; 0x0A%N] text) ([], [])) as [Hc Hcur].
      { split; [constructor|by left]. }
      pose proof (fold_paragraphs_started chunk_size overlap
                    (split [0x0A%N; 0x0A%N] text) ([], [])) as Hst.
      destruct (fold_left _ _ _) as [chunks current]. cbn [fst snd] in *.
      destruct (truthy (strip current)) eqn:Et.
      { by destruct chunks. }
      subst chunks. destruct Hst as [Hst|Hst]; [| done |].
      + right. apply split_from_nonblank; try done. by repeat constructor.
      + cbn [snd] in Hst. destruct Hcur as [->|Hcur]; [done|].
        apply ends_firm_nonblank in Hcur. by destruct (strip current).
    - intros Hb. rewrite fold_paragraphs_blank; [done|].
      by apply split_from_sub. }
  split; [|split; [done|]].
  - intros Hne Hlen. unfold chunk_text.
    assert (E2 : (len text <=? chunk_size) = true) by (apply Z.leb_le; lia).
    rewrite E2, orb_true_r. by destruct text.
  - intros Hnb E. destruct (Z_lt_le_dec chunk_size (len text)) as [Hl|Hs].
    + apply Hlong in E; [|done]. by apply nonblank_not_blank in Hnb.
    + unfold chunk_text in E.
      assert (E2 : (len text <=? chunk_size) = true) by (apply Z.leb_le; lia).
      rewrite E2, orb_true_r in E. destruct text; [by inversion Hnb|done].
Qed.

Lemma chunks_exist_witness :
  nonblank sample /\ chunk_text 20 5 sample <> [].
Proof.
  assert (H : nonblank sample) by (by left).
  split; [exact H|]. exact (proj2 (proj2 (chunks_exist 20 5 sample)) H).
Defined.

End RagFacts.

(** ** The list of documents *)

Module DocsFacts.
Import Docs.














End DocsFacts.

(** ** Plain text files *)

Module ParserFacts.
Import Parser.

(** X17. Whatever the codecs do, [parse_text] never reports that the
    file could not be decoded: [latin-1] takes any content, so
    [cp1252] is never tried. Unless the requested encoding raises
    something else than a decoding error, there is no error at all,
    and a content that neither the requested encoding nor [utf-8]
    decodes is returned byte for byte. *)
Theorem parse_text_decodes requested utf8 cp1252 content :
  (parse_text requested utf8 cp1252 content).2 <> Some NO_ENCODING
  /\ (forall cp1252',
        parse_text requested utf8 cp1252' content
        = parse_text requested utf8 cp1252 content)
  /\ ((forall e, requested content <> OtherError e) ->
      (parse_text requested utf8 cp1252 content).2 = None)
  /\ (requested content = DecodeError -> utf8 content = None ->
      parse_text requested utf8 cp1252 content = (content, None)).
Proof.
  unfold parse_text, known_codec, decode_latin1. cbn [try_decoders].
  split; [|split; [|split]].
  - destruct (requested content) as [t| |e]; [done| |].
    + by destruct (utf8 content).
    + cbn [snd]. intros E. by vm_compute in E.
  - intros cp'. destruct (requested content); [done| |done].
    by destruct (utf8 content).
  - intros H. destruct (requested content) as [t| |e]; [done| |].
    + by destruct (utf8 content).
    + by destruct (H e).
  - by intros -> ->.
Qed.

Lemma parse_text_decodes_witness :
  parse_text (fun _ => DecodeError) (fun _ => None) (fun _ => None) [0xFF; 0xFE]%N
  = ([0xFF; 0xFE]%N, None).
Proof.
  apply (proj2 (proj2 (proj2
    (parse_text_decodes (fun _ => DecodeError) (fun _ => None) (fun _ => None)
       [0xFF; 0xFE]%N))));
    reflexivity.
Defined.

End ParserFacts.
